(** * glacier/scheduler: the named-job registry over a cron engine

    A shallow embedding of [scheduler/cron.go]: the [Job] record and its
    [Next] method, the registry [schedulerImpl] with [Add], [Remove],
    [Pause], [Continue], [Info], [Start] and [Stop], and the closure
    [jobHandler] that [Add] hands to the cron engine.

    Conventions of the embedding.
    - The registry operations run under [c.lock]; they are modelled as
      sequential state transformers [schedulerImpl -> result * schedulerImpl].
    - [c.jobs] is a [map[string]*Job].  The pointers never leave the map
      ([Info] returns a copy), so an update through the pointer is an
      update of the map binding.
    - A Go call either returns or panics: [outcome].
    - Closures are first-order data ([cronFunc]) applied by [run_cronFunc];
      the closures of this package capture the receiver [c] by pointer, so
      they read the scheduler's fields at the time they run.
    - The [log.Debugf] calls of the registry operations do not influence
      control flow and are left out; the logging of [jobHandler], [Start]
      and [Stop] is kept as a list of [logEntry].
    - [time.Time] is an instant on the integer time line; the elapsed
      time that some log lines print is left out of [logMsg].
    - The methods of the collaborating interfaces ([HasLock], [TryLock],
      [TryUnLock], the [log] functions) return as their signatures say,
      and the handlers are the foreign code that may panic.  The module
      [Unguarded] takes the closures, [Start] and [Stop] again for a
      lock manager whose methods may panic too. *)

From Stdlib Require Import ZArith Lia Sorted.
From stdpp Require Import gmap strings list fin_maps.

Local Open Scope Z_scope.

(** ** Go values shared by the whole package *)

(** [cron.EntryID], a Go [int]. *)
Definition EntryID := Z.

(** [time.Time]. *)
Definition Time := Z.

(** The zero value of [time.Time], which [make] fills a fresh slice with. *)
Definition zeroTime : Time := 0.

(** Error values.  The constructors keep the arguments of the format
    strings of the source. *)
Inductive error :=
| ErrExternal (msg : string)
    (* an error made by a collaborator (parser, lock manager, handler) *)
| ErrJobExisted (name : string) (id : EntryID) (plan : string)
    (* fmt.Errorf("job with name [%s] already existed: %d | %s", name, reg.ID, reg.Plan) *)
| ErrJobNotFound (name : string)
    (* errors.Errorf("[glacier] job with name [%s] not found", name) *)
| ErrWrap (cause : error) (msg : string).
    (* errors.Wrap(err, msg) *)

(** A value of type [interface{}] as [panic] takes and [recover] gives it:
    [nil], a runtime error or another message, or an [error]. *)
Inductive any :=
| Nil
| Val (s : string)
| ErrVal (e : error).

(** The result of a Go call: a normal return or a panic in flight. *)
Inductive outcome (A : Type) :=
| Returned (a : A)
| Panicked (v : any).
Arguments Returned {A} a.
Arguments Panicked {A} v.

(** [recover()] in a deferred function: it gives the panic value ([nil]
    when the function is not panicking, and also after [panic(nil)] in
    the Go versions that keep the nil value) and the function then
    returns normally to its caller. *)
Definition recover {A : Type} (r : outcome A) : any * outcome unit :=
  match r with
  | Returned _ => (Nil, Returned tt)
  | Panicked v => (v, Returned tt)
  end.

(** Log lines, by the call that writes them. *)
Inductive logMsg :=
| MsgNoLock (name : string)
| MsgRunning (name : string)
| MsgStoppedWithErrors (name : string) (v : any)
| MsgStopped (name : string)
| MsgFailed (name : string) (err : error)
| MsgTryLockFailed (err : error)
| MsgInitLockTaskFailed (err : error)
| MsgUnLockFailed (err : error).

Inductive logEntry :=
| Debugf (m : logMsg)
| Warningf (m : logMsg)
| Errorf (m : logMsg).

Definition is_Errorf (l : logEntry) : bool :=
  match l with
  | Errorf _ => true
  | _ => false
  end.

(** ** The collaborators of the package

    Everything the package imports and this file does not define: the
    schedule parsers and schedules of the cron library, the handler values
    and the resolver that calls them, the state they act on, and the two
    global verbosity switches. *)
Class Env := {
  (** the state outside the scheduler that handlers and the lock manager
      read and write *)
  World : Type;
  (** [cron.Schedule] and its method [Next] *)
  Schedule : Type;
  sched_next : Schedule -> Time -> Time;
  (** [Parse] of the parser the engine [c.cr] was built with *)
  engine_parse : string -> Schedule + error;
  (** [Parse] of [cron.NewParser(Second|Minute|Hour|Dom|Month|Dow|Descriptor)] *)
  job_parse : string -> Schedule + error;
  (** the values passed as [handler interface{}] *)
  AnyHandler : Type;
  (** the interface [JobHandler] *)
  JobHandler : Type;
  (** the type assertion [handler.(JobHandler)] *)
  as_JobHandler : AnyHandler -> option JobHandler;
  newHandler : AnyHandler -> JobHandler;
  (** [c.resolver.ResolveWithError(hh.Handle)]: the handler runs on the
      world; it returns [nil] or an error, or it panics *)
  ResolveWithError : JobHandler -> World -> outcome (option error) * World;
  (** [infra.DEBUG] and [infra.WARN] *)
  DEBUG : bool;
  WARN : bool;
  (** the greatest length [n] for which [make([]time.Time, n)] returns:
      above it the runtime panics with "makeslice: len out of range"
      (where the heap has 48 address bits, above 2^48 bytes of 24-byte
      elements) or the process dies for lack of memory *)
  maxSliceLen : Z
}.

Section Model.
Context `{Env}.

(** ** The interface [DistributeLockManager] *)
Record DistributeLockManager := {
  TryLock : World -> option error * World;
  TryUnLock : World -> option error * World;
  HasLock : World -> bool
}.

(** ** Functions handed to the engine

    [NilFunc] is the nil [func()], the zero value of [Job.handler];
    [JobHandlerFn name hh] is the closure [jobHandler] built by [Add] for
    the job [name] around the handler [hh]; [GetDistributeLockFn] is the
    closure [getDistributeLock] of [Start]. *)
Inductive cronFunc :=
| NilFunc
| JobHandlerFn (name : string) (hh : JobHandler)
| GetDistributeLockFn.

(** ** [type Job struct] *)
Record Job := mkJob {
  ID : EntryID;
  Name : string;
  Plan : string;
  handler : cronFunc;
  Paused : bool
}.

(** The zero value [Job{}]. *)
Definition zeroJob : Job :=
  {| ID := 0; Name := ""; Plan := ""; handler := NilFunc; Paused := false |}.

(** ** [Job.Next] *)

(** The loop [for i := 0; i < nextNum; i++ { lastTs = sc.Next(lastTs);
    results[i] = lastTs }], with [fuel] the number of iterations left. *)
Fixpoint Next_loop (sc : Schedule) (fuel : nat) (i : nat) (lastTs : Time)
    (results : list Time) : list Time :=
  match fuel with
  | O => results
  | S fuel' =>
      let lastTs' := sched_next sc lastTs in
      Next_loop sc fuel' (S i) lastTs' (<[i := lastTs']> results)
  end.

(** [func (job Job) Next(nextNum int) ([]time.Time, error)]; [now] is the
    reading of [time.Now()].  [make] does not return for a negative
    length nor for a length above [maxSliceLen]: it panics, or the
    process dies, which this model does not tell from the panic. *)
Definition Next (job : Job) (nextNum : Z) (now : Time)
    : outcome (list Time * option error) :=
  match job_parse (Plan job) with
  | inr err => Returned ([], Some err)
  | inl sc =>
      if (nextNum <? 0) || (maxSliceLen <? nextNum)
      then Panicked (Val "runtime error: makeslice: len out of range")
      else
        let results := replicate (Z.to_nat nextNum) zeroTime in
        Returned (Next_loop sc (Z.to_nat nextNum) 0%nat now results, None)
  end.

(** The instants a schedule fires at after [t], the first [k] of them:
    what the loop of [Next] is meant to leave in [results]. *)
Fixpoint triggers_after (sc : Schedule) (k : nat) (t : Time) : list Time :=
  match k with
  | O => []
  | S k' => sched_next sc t :: triggers_after sc k' (sched_next sc t)
  end.

(** [Next] does not look at the clock: the reading of the claim that the
    plan and [nextNum] alone fix the result. *)
Definition Next_ignores_clock : Prop :=
  ∀ (job : Job) (nextNum : Z) (now now' : Time),
    Next job nextNum now = Next job nextNum now'.

(** ** The Schedule Engine [*cron.Cron] *)

Record Entry := mkEntry {
  eID : EntryID;
  eSchedule : Schedule;
  eJob : cronFunc
}.

(** The calls the scheduler makes on its engine, in the order made. *)
Inductive cronCall :=
| CallAddFunc (spec : string) (cmd : cronFunc)
| CallRemove (id : EntryID)
| CallStart
| CallStop.

(** Modelled from the spec: the Schedule Engine is the library
    github.com/robfig/cron/v3, which is not part of this repository.  The
    spec gives it [register(expression, callback) -> handle | error],
    [unregister(handle)], [start()] and [stop()], the handle being an
    opaque identifier of an active registration.  The engine keeps its
    registrations in [entries] and hands out the handles [1, 2, ...] from
    the counter [nextID]; a rejected expression changes nothing and gives
    the zero handle.  [calls] records what the scheduler asked for. *)
Record Cron := mkCron {
  entries : list Entry;
  nextID : EntryID;
  running : bool;
  calls : list cronCall
}.

Definition Cron_AddFunc (spec : string) (cmd : cronFunc) (e : Cron)
    : (EntryID * option error) * Cron :=
  let log := calls e ++ [CallAddFunc spec cmd] in
  match engine_parse spec with
  | inr err =>
      ((0, Some err),
       {| entries := entries e; nextID := nextID e;
          running := running e; calls := log |})
  | inl schedule =>
      let id := nextID e + 1 in
      ((id, None),
       {| entries := entries e ++ [mkEntry id schedule cmd]; nextID := id;
          running := running e; calls := log |})
  end.

Definition Cron_Remove (id : EntryID) (e : Cron) : Cron :=
  {| entries := filter (λ x, eID x ≠ id) (entries e); nextID := nextID e;
     running := running e; calls := calls e ++ [CallRemove id] |}.

Definition Cron_Start (e : Cron) : Cron :=
  {| entries := entries e; nextID := nextID e;
     running := true; calls := calls e ++ [CallStart] |}.

Definition Cron_Stop (e : Cron) : Cron :=
  {| entries := entries e; nextID := nextID e;
     running := false; calls := calls e ++ [CallStop] |}.

(** The registration the engine holds under a handle, if any. *)
Definition Cron_Entry (id : EntryID) (e : Cron) : option Entry :=
  head (filter (λ x, eID x = id) (entries e)).

(** [NewManager]'s engine, as the container first builds it. *)
Definition newCron : Cron :=
  {| entries := []; nextID := 0; running := false; calls := [] |}.

(** ** [type schedulerImpl struct]

    [lock] and [resolver] are not fields of the model: the operations are
    sequential, and the resolver is [ResolveWithError]. *)
Record schedulerImpl := mkScheduler {
  cr : Cron;
  distributeLockManager : option DistributeLockManager;
  jobs : gmap string Job
}.

Definition set_cr (e : Cron) (c : schedulerImpl) : schedulerImpl :=
  {| cr := e; distributeLockManager := distributeLockManager c;
     jobs := jobs c |}.

Definition set_jobs (m : gmap string Job) (c : schedulerImpl) : schedulerImpl :=
  {| cr := cr c; distributeLockManager := distributeLockManager c;
     jobs := m |}.

(** [func NewManager(resolver infra.Resolver) Scheduler] *)
Definition NewManager : schedulerImpl :=
  {| cr := newCron; distributeLockManager := None; jobs := ∅ |}.

(** [func (c *schedulerImpl) DistributeLockManager(lockManager)] *)
Definition SetDistributeLockManager (lockManager : option DistributeLockManager)
    (c : schedulerImpl) : schedulerImpl :=
  {| cr := cr c; distributeLockManager := lockManager; jobs := jobs c |}.

(** The messages of the two [errors.Wrap] calls. *)
Definition msgAddFailed : string := "[glacier] add cron job failed".
Definition msgContinueFailed : string :=
  "[glacier] change job from paused to continue failed".

(** [hh, ok := handler.(JobHandler); if !ok { hh = newHandler(handler) }] *)
Definition hh_of (h : AnyHandler) : JobHandler :=
  match as_JobHandler h with
  | Some hh => hh
  | None => newHandler h
  end.

(** [func (c *schedulerImpl) Add(name, plan string, handler interface{}) error] *)
Definition Add (name plan : string) (h : AnyHandler) (c : schedulerImpl)
    : option error * schedulerImpl :=
  match jobs c !! name with
  | Some reg => (Some (ErrJobExisted name (ID reg) (Plan reg)), c)
  | None =>
      let hh := hh_of h in
      let jobHandler := JobHandlerFn name hh in
      let '((id, err), e) := Cron_AddFunc plan jobHandler (cr c) in
      match err with
      | Some err => (Some (ErrWrap err msgAddFailed), set_cr e c)
      | None =>
          (None,
           set_jobs (<[name := {| ID := id; Name := name; Plan := plan;
                                  handler := jobHandler; Paused := false |}]>
                       (jobs c))
                    (set_cr e c))
      end
  end.

(** [func (c *schedulerImpl) MustAdd(name, plan string, handler interface{})] *)
Definition MustAdd (name plan : string) (h : AnyHandler) (c : schedulerImpl)
    : outcome unit * schedulerImpl :=
  match Add name plan h c with
  | (Some err, c') => (Panicked (ErrVal err), c')
  | (None, c') => (Returned tt, c')
  end.

(** [func (c *schedulerImpl) Remove(name string) error] *)
Definition Remove (name : string) (c : schedulerImpl)
    : option error * schedulerImpl :=
  match jobs c !! name with
  | None => (Some (ErrJobNotFound name), c)
  | Some reg =>
      let c1 := set_jobs (delete name (jobs c)) c in
      let c2 := if Paused reg then c1
                else set_cr (Cron_Remove (ID reg) (cr c1)) c1 in
      (None, c2)
  end.

(** [func (c *schedulerImpl) Pause(name string) error] *)
Definition Pause (name : string) (c : schedulerImpl)
    : option error * schedulerImpl :=
  match jobs c !! name with
  | None => (Some (ErrJobNotFound name), c)
  | Some reg =>
      if Paused reg then (None, c)
      else
        let c1 := set_cr (Cron_Remove (ID reg) (cr c)) c in
        (None,
         set_jobs (<[name := {| ID := ID reg; Name := Name reg;
                                Plan := Plan reg; handler := handler reg;
                                Paused := true |}]> (jobs c1)) c1)
  end.

(** [func (c *schedulerImpl) Continue(name string) error] *)
Definition Continue (name : string) (c : schedulerImpl)
    : option error * schedulerImpl :=
  match jobs c !! name with
  | None => (Some (ErrJobNotFound name), c)
  | Some reg =>
      if negb (Paused reg) then (None, c)
      else
        let '((id, err), e) := Cron_AddFunc (Plan reg) (handler reg) (cr c) in
        match err with
        | Some err => (Some (ErrWrap err msgContinueFailed), set_cr e c)
        | None =>
            (None,
             set_jobs (<[name := {| ID := id; Name := Name reg;
                                    Plan := Plan reg; handler := handler reg;
                                    Paused := false |}]> (jobs c))
                      (set_cr e c))
        end
  end.

(** [func (c *schedulerImpl) Info(name string) (Job, error)] *)
Definition Info (name : string) (c : schedulerImpl) : Job * option error :=
  match jobs c !! name with
  | Some job => (job, None)
  | None => (zeroJob, Some (ErrJobNotFound name))
  end.

(** ** The closures run by the engine *)

Definition debugf (m : logMsg) : list logEntry :=
  if DEBUG then [Debugf m] else [].

Definition warningf (m : logMsg) : list logEntry :=
  if WARN then [Warningf m] else [].

(** The guard [c.distributeLockManager != nil &&
    !c.distributeLockManager.HasLock()] of [jobHandler]. *)
Definition lock_missing (c : schedulerImpl) (w : World) : bool :=
  match distributeLockManager c with
  | Some m => negb (HasLock m w)
  | None => false
  end.

(** The closure [jobHandler] of [Add], for the job [name] and the handler
    [hh], run on the world [w]: the outcome the engine sees, the world
    afterwards and the lines logged.  The call of the handler is the only
    statement under the deferred function, which calls [recover]. *)
Definition jobHandler (c : schedulerImpl) (name : string) (hh : JobHandler)
    (w : World) : outcome unit * World * list logEntry :=
  if lock_missing c w then (Returned tt, w, debugf (MsgNoLock name))
  else
    let l0 := debugf (MsgRunning name) in
    let '(r, w1) := ResolveWithError hh w in
    let l1 := match r with
              | Returned (Some err) => [Errorf (MsgFailed name err)]
              | _ => []
              end in
    let '(err, r') := recover r in
    let l2 := match err with
              | Nil => debugf (MsgStopped name)
              | _ => [Errorf (MsgStoppedWithErrors name err)]
              end in
    (r', w1, l0 ++ l1 ++ l2).

(** The closure [getDistributeLock] of [Start].  It has no deferred
    function; calling a method of a nil interface panics. *)
Definition getDistributeLock (c : schedulerImpl) (w : World)
    : outcome unit * World * list logEntry :=
  match distributeLockManager c with
  | None => (Panicked (Val "runtime error: invalid memory address or nil pointer dereference"), w, [])
  | Some m =>
      match TryLock m w with
      | (Some err, w1) => (Returned tt, w1, warningf (MsgTryLockFailed err))
      | (None, w1) => (Returned tt, w1, [])
      end
  end.

Definition run_cronFunc (c : schedulerImpl) (f : cronFunc) (w : World)
    : outcome unit * World * list logEntry :=
  match f with
  | NilFunc => (Panicked (Val "runtime error: invalid memory address or nil pointer dereference"), w, [])
  | JobHandlerFn name hh => jobHandler c name hh w
  | GetDistributeLockFn => getDistributeLock c w
  end.

(** [func (c *schedulerImpl) Start()] *)
Definition Start (c : schedulerImpl) (w : World)
    : schedulerImpl * World * list logEntry :=
  match distributeLockManager c with
  | None => (set_cr (Cron_Start (cr c)) c, w, [])
  | Some _ =>
      let '(_, w1, l1) := getDistributeLock c w in
      let '((_, err), e) := Cron_AddFunc "@every 60s" GetDistributeLockFn (cr c) in
      let l2 := match err with
                | Some err => [Errorf (MsgInitLockTaskFailed err)]
                | None => []
                end in
      (set_cr (Cron_Start e) c, w1, l1 ++ l2)
  end.

(** [func (c *schedulerImpl) Stop()] *)
Definition Stop (c : schedulerImpl) (w : World)
    : schedulerImpl * World * list logEntry :=
  let c1 := set_cr (Cron_Stop (cr c)) c in
  match distributeLockManager c with
  | None => (c1, w, [])
  | Some m =>
      match TryUnLock m w with
      | (Some err, w1) => (c1, w1, warningf (MsgUnLockFailed err))
      | (None, w1) => (c1, w1, [])
      end
  end.

(** ** Triggers

    The engine runs the function of an entry when the entry is due.
    Nothing in the engine recovers a panic of that function: the panic
    ends the process, and with it every later trigger. *)
Definition trigger (c : schedulerImpl) (id : EntryID) (w : World)
    : outcome unit * World * list logEntry :=
  match Cron_Entry id (cr c) with
  | None => (Returned tt, w, [])
  | Some e => run_cronFunc c (eJob e) w
  end.

Fixpoint dispatch (c : schedulerImpl) (ids : list EntryID) (w : World)
    : outcome unit * World * list logEntry :=
  match ids with
  | [] => (Returned tt, w, [])
  | id :: rest =>
      match trigger c id w with
      | (Returned _, w1, l1) =>
          let '(r, w2, l2) := dispatch c rest w1 in (r, w2, l1 ++ l2)
      | (Panicked v, w1, l1) => (Panicked v, w1, l1)
      end
  end.

(** ** The states a scheduler goes through

    One call of the public interface.  [MustAdd] and
    [AddAndRunOnServerReady] change the scheduler as [Add] does. *)
Inductive call :=
| CAdd (name plan : string) (h : AnyHandler)
| CRemove (name : string)
| CPause (name : string)
| CContinue (name : string)
| CDistributeLockManager (m : option DistributeLockManager)
| CStart (w : World)
| CStop (w : World).

Definition exec (k : call) (c : schedulerImpl) : schedulerImpl :=
  match k with
  | CAdd name plan h => (Add name plan h c).2
  | CRemove name => (Remove name c).2
  | CPause name => (Pause name c).2
  | CContinue name => (Continue name c).2
  | CDistributeLockManager m => SetDistributeLockManager m c
  | CStart w => (Start c w).1.1
  | CStop w => (Stop c w).1.1
  end.

(** The scheduler after the calls [ks], made in order on a new manager. *)
Definition run (ks : list call) : schedulerImpl :=
  fold_left (λ c k, exec k c) ks NewManager.

Inductive reachable : schedulerImpl -> Prop :=
| reachable_new : reachable NewManager
| reachable_exec k c : reachable c -> reachable (exec k c).

(** ** Reading the handle of a record

    [ID] is an [int]: the record has no other way to carry no handle than
    the zero value, which is also what the engine gives for a rejected
    registration and what [Entry.Valid] of the engine tests. *)
Definition has_handle (j : Job) : Prop := ID j ≠ 0.

(** The engine holds a registration under the handle of the record. *)
Definition registered (c : schedulerImpl) (j : Job) : Prop :=
  ∃ e, e ∈ entries (cr c) ∧ eID e = ID j.

End Model.

(** ** A concrete set of collaborators

    Schedules that fire every [d] seconds, a parser that knows two
    expressions, four handlers, and a world that counts the handler runs
    and says who holds the distributed lock. *)
Module Demo.

Record world := mkWorld {
  runs : nat;
  lockHeld : bool
}.

Inductive handlerKind :=
| Succeeds
| Fails
| Panics
| PanicsNil.

Definition parse (spec : string) : Z + error :=
  if String.eqb spec "@every 5s" then inl 5
  else if String.eqb spec "@every 60s" then inl 60
  else inr (ErrExternal "unrecognized descriptor").

Definition resolve (h : handlerKind) (w : world)
    : outcome (option error) * world :=
  let w' := {| runs := S (runs w); lockHeld := lockHeld w |} in
  match h with
  | Succeeds => (Returned None, w')
  | Fails => (Returned (Some (ErrExternal "handler failed")), w')
  | Panics => (Panicked (Val "boom"), w')
  | PanicsNil => (Panicked Nil, w')
  end.

#[export] Instance env : Env := {|
  World := world;
  Schedule := Z;
  sched_next := λ d t, t + d;
  engine_parse := parse;
  job_parse := parse;
  AnyHandler := handlerKind;
  JobHandler := handlerKind;
  as_JobHandler := Some;
  newHandler := λ h, h;
  ResolveWithError := resolve;
  DEBUG := true;
  WARN := true;
  maxSliceLen := 2 ^ 48 / 24
|}.

Definition lockManager : DistributeLockManager :=
  {| TryLock := λ w, (None, {| runs := runs w; lockHeld := true |});
     TryUnLock := λ w, (None, {| runs := runs w; lockHeld := false |});
     HasLock := lockHeld |}.

(** A job as [Add] makes it. *)
Definition job (id : EntryID) (name plan : string) (h : handlerKind)
    (paused : bool) : Job :=
  {| ID := id; Name := name; Plan := plan;
     handler := JobHandlerFn name h; Paused := paused |}.

(** The entry the engine keeps for such a job. *)
Definition entry (id : EntryID) (every : Z) (name : string) (h : handlerKind)
    : Entry :=
  mkEntry id every (JobHandlerFn name h).

(** Two worlds: this process holds the lock, or it does not. *)
Definition locked : world := {| runs := 0; lockHeld := true |}.
Definition unlocked : world := {| runs := 0; lockHeld := false |}.

(** One active job [a]. *)
Definition oneJob : schedulerImpl := run [CAdd "a" "@every 5s" Panics].

(** The job [a], added and then paused. *)
Definition pausedJob : schedulerImpl :=
  run [CAdd "a" "@every 5s" Succeeds; CPause "a"].

(** A lock manager and two jobs, the first with a panicking handler. *)
Definition twoJobs : schedulerImpl :=
  run [CDistributeLockManager (Some lockManager);
       CAdd "a" "@every 5s" Panics; CAdd "b" "@every 60s" Succeeds].

(** A scheduler record holding a paused job whose plan the engine
    rejects. *)
Definition staleJob : schedulerImpl :=
  {| cr := newCron; distributeLockManager := None;
     jobs := {[ "a" := job 1 "a" "never" Succeeds true ]} |}.

End Demo.

(** ** Engine rejections

    The two operations that register with the engine, and what it means
    that the engine rejects the registration they ask for. *)
Section Registration.
Context `{Env}.

Inductive registration :=
| ByAdd (name plan : string) (h : AnyHandler)
| ByContinue (name : string).

Definition perform (r : registration) (c : schedulerImpl)
    : option error * schedulerImpl :=
  match r with
  | ByAdd name plan h => Add name plan h c
  | ByContinue name => Continue name c
  end.

(** [r] reaches its [c.cr.AddFunc] call and the engine answers with the
    error [cause]. *)
Definition engine_rejects (r : registration) (c : schedulerImpl)
    (cause : error) : Prop :=
  match r with
  | ByAdd name plan h =>
      jobs c !! name = None ∧
      (Cron_AddFunc plan (JobHandlerFn name (hh_of h)) (cr c)).1.2 = Some cause
  | ByContinue name =>
      ∃ reg, jobs c !! name = Some reg ∧ Paused reg = true ∧
             (Cron_AddFunc (Plan reg) (handler reg) (cr c)).1.2 = Some cause
  end.

Definition wrap_message (r : registration) : string :=
  match r with
  | ByAdd _ _ _ => msgAddFailed
  | ByContinue _ => msgContinueFailed
  end.

(** What the caller of [r] counts on after a rejection. *)
Definition left_as_before (r : registration) (c c' : schedulerImpl) : Prop :=
  match r with
  | ByAdd name _ _ => jobs c' !! name = None
  | ByContinue name =>
      ∃ reg, jobs c !! name = Some reg ∧ jobs c' !! name = Some reg ∧
             Paused reg = true
  end.

(** The bookkeeping that ties the records of the registry to the entries
    of the engine. *)
Record consistent (c : schedulerImpl) : Prop := {
  counter_nonneg : 0 <= nextID (cr c);
  entries_bounded :
    ∀ e, e ∈ entries (cr c) -> 0 < eID e <= nextID (cr c);
  entries_unique :
    ∀ e1 e2, e1 ∈ entries (cr c) -> e2 ∈ entries (cr c) ->
             eID e1 = eID e2 -> e1 = e2;
  jobs_named :
    ∀ n j, jobs c !! n = Some j ->
           Name j = n ∧ (∃ hh, handler j = JobHandlerFn n hh) ∧
           0 < ID j <= nextID (cr c);
  active_registered :
    ∀ n j, jobs c !! n = Some j -> Paused j = false ->
           ∃ sc, mkEntry (ID j) sc (handler j) ∈ entries (cr c);
  paused_unregistered :
    ∀ n j, jobs c !! n = Some j -> Paused j = true ->
           ∀ e, e ∈ entries (cr c) -> eID e ≠ ID j
}.

(** The invariant of the data model as the spec words it: a record shows
    a handle exactly when it is not paused. *)
Definition handle_iff_active : Prop :=
  ∀ (c : schedulerImpl) (name : string) (j : Job),
    reachable c -> Info name c = (j, None) ->
    (has_handle j ↔ Paused j = false).

End Registration.

(** ** The rest of the interface and of the bookkeeping *)

Section ServerReady.
Context `{Env}.

(** What [AddAndRunOnServerReady] passes to the readiness hook: the value
    it was given, or the method value [hh.Handle] when that value is a
    [JobHandler]. *)
Inductive readyHandler :=
| RawHandler (h : AnyHandler)
| HandleMethod (hh : JobHandler).

(** [c.resolver.Resolve(func(hook infra.Hook) { hook.OnServerReady(handler) })]:
    the resolver and the hook are collaborators; the call acts on the
    world and returns [nil] or the error of the resolution. *)
Variable Resolve_OnServerReady : readyHandler -> World -> option error * World.

(** [func (c *schedulerImpl) AddAndRunOnServerReady(name, plan string,
    handler interface{}) error] *)
Definition AddAndRunOnServerReady (name plan : string) (h : AnyHandler)
    (c : schedulerImpl) (w : World) : option error * schedulerImpl * World :=
  match Add name plan h c with
  | (Some err, c') => (Some err, c', w)
  | (None, c') =>
      let handler := match as_JobHandler h with
                     | Some hh => HandleMethod hh
                     | None => RawHandler h
                     end in
      let '(err, w') := Resolve_OnServerReady handler w in
      (err, c', w')
  end.

(** [func (c *schedulerImpl) MustAddAndRunOnServerReady(name, plan string,
    handler interface{})] *)
Definition MustAddAndRunOnServerReady (name plan : string) (h : AnyHandler)
    (c : schedulerImpl) (w : World) : outcome unit * schedulerImpl * World :=
  match AddAndRunOnServerReady name plan h c w with
  | (Some err, c', w') => (Panicked (ErrVal err), c', w')
  | (None, c', w') => (Returned tt, c', w')
  end.

End ServerReady.

Section Bookkeeping.
Context `{Env}.

(** The name a call works on, if it works on one. *)
Definition target (k : call) : option string :=
  match k with
  | CAdd name _ _ | CRemove name | CPause name | CContinue name => Some name
  | CDistributeLockManager _ | CStart _ | CStop _ => None
  end.

(** The entry [e] of the engine is accounted for: it runs the lock
    poller, or it runs the callback of an active record that carries the
    entry's handle. *)
Definition owns (c : schedulerImpl) (e : Entry) : Prop :=
  match eJob e with
  | NilFunc => False
  | GetDistributeLockFn => True
  | JobHandlerFn n hh =>
      ∃ j, jobs c !! n = Some j ∧ Paused j = false ∧
           ID j = eID e ∧ handler j = eJob e
  end.

Definition owned (c : schedulerImpl) : Prop :=
  ∀ e, e ∈ entries (cr c) -> owns c e.

(** The entry under [id], if there is one, runs the callback of a job. *)
Definition job_entry (c : schedulerImpl) (id : EntryID) : Prop :=
  ∀ e, Cron_Entry id (cr c) = Some e ->
       ∃ n hh, eJob e = JobHandlerFn n hh.

(** Every accepted plan and every [n >= 0] give exactly [n] instants in
    ascending order: the reading of the spec's sentence on [Next]. *)
Definition Next_lists_ascending : Prop :=
  ∀ (job : Job) (sc : Schedule) (n : Z) (now : Time),
    job_parse (Plan job) = inl sc -> 0 <= n ->
    ∃ ts, Next job n now = Returned (ts, None) ∧
          length ts = Z.to_nat n ∧
          StronglySorted Z.lt ts.

End Bookkeeping.

(** ** The calls into the lock manager, unguarded

    A [DistributeLockManager] is foreign code behind an interface: each
    of its methods may panic where the definitions above take it to
    return, and a manager that wraps a nil pointer is a non-nil manager
    whose methods panic.  The scheduler calls [HasLock] before the
    deferred function of [jobHandler] is in place, and [TryLock] and
    [TryUnLock] without any deferred function.  The functions below are
    [jobHandler], [getDistributeLock], [Start] and [Stop] once more, for
    such a manager; they take the two fields of [c] that they read,
    [c.distributeLockManager] as [lm] and [c.cr] as the engine. *)
Module Unguarded.
Section Closures.
Context `{Env}.

Record DistributeLockManager := {
  TryLock : World -> outcome (option error) * World;
  TryUnLock : World -> outcome (option error) * World;
  HasLock : World -> outcome bool * World
}.

(** The statements of [jobHandler] after the lock test: the handler runs
    under the deferred function that calls [recover]. *)
Definition guarded_run (name : string) (hh : JobHandler) (w : World)
    : outcome unit * World * list logEntry :=
  let l0 := debugf (MsgRunning name) in
  let '(r, w1) := ResolveWithError hh w in
  let l1 := match r with
            | Returned (Some err) => [Errorf (MsgFailed name err)]
            | _ => []
            end in
  let '(err, r') := recover r in
  let l2 := match err with
            | Nil => debugf (MsgStopped name)
            | _ => [Errorf (MsgStoppedWithErrors name err)]
            end in
  (r', w1, l0 ++ l1 ++ l2).

(** The closure [jobHandler] of [Add].  A panic of [HasLock] leaves the
    closure as it is: no deferred function is in place yet. *)
Definition jobHandler (lm : option DistributeLockManager) (name : string)
    (hh : JobHandler) (w : World) : outcome unit * World * list logEntry :=
  match lm with
  | None => guarded_run name hh w
  | Some m =>
      match HasLock m w with
      | (Panicked v, w0) => (Panicked v, w0, [])
      | (Returned false, w0) => (Returned tt, w0, debugf (MsgNoLock name))
      | (Returned true, w0) => guarded_run name hh w0
      end
  end.

(** The closure [getDistributeLock] of [Start]. *)
Definition getDistributeLock (lm : option DistributeLockManager) (w : World)
    : outcome unit * World * list logEntry :=
  match lm with
  | None => (Panicked (Val "runtime error: invalid memory address or nil pointer dereference"), w, [])
  | Some m =>
      match TryLock m w with
      | (Panicked v, w1) => (Panicked v, w1, [])
      | (Returned (Some err), w1) =>
          (Returned tt, w1, warningf (MsgTryLockFailed err))
      | (Returned None, w1) => (Returned tt, w1, [])
      end
  end.

Definition run_cronFunc (lm : option DistributeLockManager) (f : cronFunc)
    (w : World) : outcome unit * World * list logEntry :=
  match f with
  | NilFunc => (Panicked (Val "runtime error: invalid memory address or nil pointer dereference"), w, [])
  | JobHandlerFn name hh => jobHandler lm name hh w
  | GetDistributeLockFn => getDistributeLock lm w
  end.

(** A trigger of the entry [id] of the engine [e]. *)
Definition trigger (lm : option DistributeLockManager) (e : Cron)
    (id : EntryID) (w : World) : outcome unit * World * list logEntry :=
  match Cron_Entry id e with
  | None => (Returned tt, w, [])
  | Some x => run_cronFunc lm (eJob x) w
  end.

(** A sequence of triggers; the first panic ends the process. *)
Fixpoint dispatch (lm : option DistributeLockManager) (e : Cron)
    (ids : list EntryID) (w : World) : outcome unit * World * list logEntry :=
  match ids with
  | [] => (Returned tt, w, [])
  | id :: rest =>
      match trigger lm e id w with
      | (Returned _, w1, l1) =>
          let '(r, w2, l2) := dispatch lm e rest w1 in (r, w2, l1 ++ l2)
      | (Panicked v, w1, l1) => (Panicked v, w1, l1)
      end
  end.

(** [func (c *schedulerImpl) Start()]: the outcome, the engine and the
    world afterwards, and the lines logged.  A panic of the first
    [getDistributeLock()] ends [Start] before [AddFunc] and
    [c.cr.Start()]. *)
Definition Start (lm : option DistributeLockManager) (e : Cron) (w : World)
    : outcome unit * Cron * World * list logEntry :=
  match lm with
  | None => (Returned tt, Cron_Start e, w, [])
  | Some _ =>
      match getDistributeLock lm w with
      | (Panicked v, w1, l1) => (Panicked v, e, w1, l1)
      | (Returned _, w1, l1) =>
          let '((_, err), e1) :=
            Cron_AddFunc "@every 60s" GetDistributeLockFn e in
          let l2 := match err with
                    | Some err => [Errorf (MsgInitLockTaskFailed err)]
                    | None => []
                    end in
          (Returned tt, Cron_Start e1, w1, l1 ++ l2)
      end
  end.

(** [func (c *schedulerImpl) Stop()]: [c.cr.Stop()] comes first, so the
    engine is stopped also when [TryUnLock] panics. *)
Definition Stop (lm : option DistributeLockManager) (e : Cron) (w : World)
    : outcome unit * Cron * World * list logEntry :=
  let e1 := Cron_Stop e in
  match lm with
  | None => (Returned tt, e1, w, [])
  | Some m =>
      match TryUnLock m w with
      | (Panicked v, w1) => (Panicked v, e1, w1, [])
      | (Returned (Some err), w1) =>
          (Returned tt, e1, w1, warningf (MsgUnLockFailed err))
      | (Returned None, w1) => (Returned tt, e1, w1, [])
      end
  end.

End Closures.
End Unguarded.

Section Returning.
Context `{Env}.

(** A manager whose methods return, seen as a manager that may panic. *)
Definition returning (m : DistributeLockManager)
    : Unguarded.DistributeLockManager :=
  {| Unguarded.TryLock := λ w, (Returned (TryLock m w).1, (TryLock m w).2);
     Unguarded.TryUnLock :=
       λ w, (Returned (TryUnLock m w).1, (TryUnLock m w).2);
     Unguarded.HasLock := λ w, (Returned (HasLock m w), w) |}.

End Returning.

Section UnguardedScheduler.
Context `{Env}.

(** [schedulerImpl] with a lock manager that may panic. *)
Record uScheduler := mkUScheduler {
  u_cr : Cron;
  u_distributeLockManager : option Unguarded.DistributeLockManager;
  u_jobs : gmap string Job
}.

(** [Add], [Remove], [Pause] and [Continue] read and write [c.cr] and
    [c.jobs] and nothing else of [c]: they are run on these two fields
    and their result is put back. *)
Definition registry_of (s : uScheduler) : schedulerImpl :=
  mkScheduler (u_cr s) None (u_jobs s).

Definition with_registry (c : schedulerImpl) (s : uScheduler) : uScheduler :=
  mkUScheduler (cr c) (u_distributeLockManager s) (jobs c).

(** One call of the public interface on such a scheduler. *)
Inductive ucall :=
| UAdd (name plan : string) (h : AnyHandler)
| URemove (name : string)
| UPause (name : string)
| UContinue (name : string)
| UDistributeLockManager (m : option Unguarded.DistributeLockManager)
| UStart (w : World)
| UStop (w : World).

Definition uexec (k : ucall) (s : uScheduler) : uScheduler :=
  match k with
  | UAdd name plan h => with_registry (Add name plan h (registry_of s)).2 s
  | URemove name => with_registry (Remove name (registry_of s)).2 s
  | UPause name => with_registry (Pause name (registry_of s)).2 s
  | UContinue name => with_registry (Continue name (registry_of s)).2 s
  | UDistributeLockManager m => mkUScheduler (u_cr s) m (u_jobs s)
  | UStart w =>
      mkUScheduler
        (Unguarded.Start (u_distributeLockManager s) (u_cr s) w).1.1.2
        (u_distributeLockManager s) (u_jobs s)
  | UStop w =>
      mkUScheduler
        (Unguarded.Stop (u_distributeLockManager s) (u_cr s) w).1.1.2
        (u_distributeLockManager s) (u_jobs s)
  end.

Definition uNewManager : uScheduler := mkUScheduler newCron None ∅.

Definition urun (ks : list ucall) : uScheduler :=
  fold_left (λ s k, uexec k s) ks uNewManager.

Inductive ureachable : uScheduler -> Prop :=
| ureachable_new : ureachable uNewManager
| ureachable_exec k s : ureachable s -> ureachable (uexec k s).

(** A manager whose methods return and do nothing. *)
Definition idleManager : DistributeLockManager :=
  {| TryLock := λ w, (None, w); TryUnLock := λ w, (None, w);
     HasLock := λ _, true |}.

End UnguardedScheduler.

(** More concrete schedulers and a readiness hook that refuses one
    handler. *)
Module Scenario.

(** A manager that has lost its backend: [HasLock] panics unless the
    lock is held, [TryLock] and [TryUnLock] panic. *)
Definition lostManager : @Unguarded.DistributeLockManager Demo.env :=
  @Unguarded.Build_DistributeLockManager Demo.env
    (λ w : Demo.world, (Panicked (Val "connection lost"), w))
    (λ w : Demo.world, (Panicked (Val "connection lost"), w))
    (λ w : Demo.world,
       if Demo.lockHeld w then (Returned true, w)
       else (Panicked (Val "connection lost"), w)).

Definition onServerReady (h : @readyHandler Demo.env) (w : Demo.world)
    : option error * Demo.world :=
  match h with
  | HandleMethod Demo.Fails => (Some (ErrExternal "can not resolve"), w)
  | _ => (None, {| Demo.runs := S (Demo.runs w); Demo.lockHeld := Demo.lockHeld w |})
  end.

(** Two jobs and a started engine; then the manager loses its backend. *)
Definition lost : @uScheduler Demo.env :=
  urun [@UDistributeLockManager Demo.env (Some (returning Demo.lockManager));
        @UAdd Demo.env "a" "@every 5s" Demo.Panics;
        @UStart Demo.env Demo.unlocked;
        @UAdd Demo.env "b" "@every 60s" Demo.Succeeds;
        @UDistributeLockManager Demo.env (Some lostManager)].

(** The same with the manager still in order. *)
Definition sound : @uScheduler Demo.env :=
  urun [@UDistributeLockManager Demo.env (Some (returning Demo.lockManager));
        @UAdd Demo.env "a" "@every 5s" Demo.Panics;
        @UStart Demo.env Demo.unlocked;
        @UAdd Demo.env "b" "@every 60s" Demo.Succeeds].

(** The poller is registered by [Start] and the lock manager is taken
    away afterwards. *)
Definition unsetLock : @schedulerImpl Demo.env :=
  run [@CDistributeLockManager Demo.env (Some Demo.lockManager);
       @CStart Demo.env Demo.unlocked;
       @CDistributeLockManager Demo.env None].

(** Two active jobs and a started engine with its poller. *)
Definition started : @schedulerImpl Demo.env :=
  run [@CDistributeLockManager Demo.env (Some Demo.lockManager);
       @CAdd Demo.env "a" "@every 5s" Demo.Panics;
       @CStart Demo.env Demo.unlocked;
       @CAdd Demo.env "b" "@every 60s" Demo.Succeeds].

End Scenario.

(** Collaborators whose parser also knows a plan for a day that never
    comes.  The schedule of the cron library looks for the next
    activation time within five years and returns the zero [time.Time]
    when there is none, as for the 30th of February. *)
Module Calendar.

Inductive schedule :=
| Every (seconds : Z)
| Unsatisfiable.

Definition next (sc : schedule) (t : Time) : Time :=
  match sc with
  | Every d => t + d
  | Unsatisfiable => zeroTime
  end.

Definition parse (spec : string) : schedule + error :=
  if String.eqb spec "@every 5s" then inl (Every 5)
  else if String.eqb spec "0 0 0 30 2 *" then inl Unsatisfiable
  else inr (ErrExternal "unrecognized descriptor").

#[export] Instance env : Env := {|
  World := Demo.world;
  Schedule := schedule;
  sched_next := next;
  engine_parse := parse;
  job_parse := parse;
  AnyHandler := Demo.handlerKind;
  JobHandler := Demo.handlerKind;
  as_JobHandler := Some;
  newHandler := λ h, h;
  ResolveWithError := Demo.resolve;
  DEBUG := true;
  WARN := true;
  maxSliceLen := 2 ^ 48 / 24
|}.

Definition job (plan : string) : Job :=
  {| ID := 1; Name := "a"; Plan := plan;
     handler := JobHandlerFn "a" Demo.Succeeds; Paused := false |}.

End Calendar.

(** * Properties *)

Section Registry.
Context `{Env}.

Implicit Types (c : schedulerImpl) (name plan : string) (reg j : Job).

(** *** The engine *)

Lemma Cron_AddFunc_rejected spec cmd e cause :
  (Cron_AddFunc spec cmd e).1.2 = Some cause ->
  engine_parse spec = inr cause ∧
  entries (Cron_AddFunc spec cmd e).2 = entries e ∧
  nextID (Cron_AddFunc spec cmd e).2 = nextID e ∧
  running (Cron_AddFunc spec cmd e).2 = running e.
Proof.
  unfold Cron_AddFunc. destruct (engine_parse spec) as [sc|err]; simpl.
  - discriminate.
  - intros [= ->]. auto.
Qed.

Lemma Cron_AddFunc_accepted spec cmd e sc :
  engine_parse spec = inl sc ->
  Cron_AddFunc spec cmd e =
    ((nextID e + 1, None),
     {| entries := entries e ++ [mkEntry (nextID e + 1) sc cmd];
        nextID := nextID e + 1; running := running e;
        calls := calls e ++ [CallAddFunc spec cmd] |}).
Proof. unfold Cron_AddFunc. intros ->. reflexivity. Qed.

Lemma Cron_Entry_Remove id e : Cron_Entry id (Cron_Remove id e) = None.
Proof.
  unfold Cron_Entry, Cron_Remove; simpl.
  destruct (filter _ (filter _ (entries e))) as [|x l] eqn:E; [done|].
  assert (Hx : x ∈ filter (λ x, eID x = id)
                 (filter (λ x, eID x ≠ id) (entries e))).
  { rewrite E. left. }
  apply list_elem_of_filter in Hx as [Heq Hx].
  apply list_elem_of_filter in Hx as [Hne _]. done.
Qed.

Lemma Cron_Entry_Some id e x :
  Cron_Entry id e = Some x -> x ∈ entries e ∧ eID x = id.
Proof.
  unfold Cron_Entry. intros Hh.
  assert (Hx : x ∈ filter (λ x, eID x = id) (entries e)).
  { destruct (filter _ (entries e)) as [|y l]; simplify_eq/=. left. }
  apply list_elem_of_filter in Hx. tauto.
Qed.

Lemma Cron_Entry_None id e :
  Cron_Entry id e = None <-> ∀ x, x ∈ entries e -> eID x ≠ id.
Proof.
  unfold Cron_Entry. split.
  - intros Hh x Hx Heq.
    assert (Hf : x ∈ filter (λ x, eID x = id) (entries e))
      by (apply list_elem_of_filter; done).
    destruct (filter _ (entries e)); [by apply elem_of_nil in Hf | done].
  - intros Hall. destruct (filter _ (entries e)) as [|y l] eqn:E; [done|].
    assert (Hy : y ∈ filter (λ x, eID x = id) (entries e))
      by (rewrite E; left).
    apply list_elem_of_filter in Hy as [Heq Hy]. by destruct (Hall y Hy).
Qed.

(** *** [Add] *)

(** C1. [Add] under a name that the registry already holds, paused or
    active, returns the already-existed error for that name and changes
    nothing: the scheduler afterwards is the scheduler before, so the
    record of the first job, as [Info] shows it, and the entries and the
    call history of the engine are what they were. *)
Theorem Add_existing_name_fails c name plan h reg :
  jobs c !! name = Some reg ->
  ∃ c',
    Add name plan h c = (Some (ErrJobExisted name (ID reg) (Plan reg)), c') ∧
    c' = c ∧
    Info name c' = (reg, None) ∧
    entries (cr c') = entries (cr c) ∧
    calls (cr c') = calls (cr c).
Proof.
  intros Hreg. exists c. unfold Add, Info. rewrite Hreg. auto.
Qed.

(** Two [Add]s in a row under one name: the first is accepted, the second
    fails and the job of the first stays registered and active. *)
Lemma Add_twice c name plan plan' h h' sc :
  jobs c !! name = None ->
  engine_parse plan = inl sc ->
  ∃ c1 reg,
    Add name plan h c = (None, c1) ∧
    jobs c1 !! name = Some reg ∧
    Plan reg = plan ∧ Paused reg = false ∧
    Add name plan' h' c1 =
      (Some (ErrJobExisted name (ID reg) (Plan reg)), c1).
Proof.
  intros Hfree Hsc. unfold Add at 1. rewrite Hfree.
  rewrite (Cron_AddFunc_accepted _ _ _ sc Hsc). simpl.
  eexists _, _. split; [reflexivity|].
  split; [apply lookup_insert_eq|].
  split; [reflexivity|]. split; [reflexivity|].
  unfold Add. simpl. rewrite lookup_insert_eq. reflexivity.
Qed.

(** C4. When the engine rejects the registration that [Add] or [Continue]
    asks for, the operation returns the cause of the engine wrapped in its
    own message and the registry is as before: the job map, the entries
    of the engine and its handle counter are unchanged, so [Add] has put
    no record under the name and the job of [Continue] is still there and
    still paused. *)
Theorem engine_rejection_leaves_registry (r : registration) c cause :
  engine_rejects r c cause ->
  ∃ c',
    perform r c = (Some (ErrWrap cause (wrap_message r)), c') ∧
    jobs c' = jobs c ∧
    entries (cr c') = entries (cr c) ∧
    nextID (cr c') = nextID (cr c) ∧
    left_as_before r c c'.
Proof.
  destruct r as [name plan h | name]; simpl.
  - intros [Hfree Hrej]. unfold Add. rewrite Hfree.
    destruct (Cron_AddFunc_rejected _ _ _ _ Hrej) as (_ & He & Hn & _).
    destruct (Cron_AddFunc _ _ _) as [[id err] e]. simpl in *. subst err.
    eexists. split; [reflexivity|]. simpl. auto.
  - intros (reg & Hreg & Hpaused & Hrej). unfold Continue.
    rewrite Hreg, Hpaused. simpl.
    destruct (Cron_AddFunc_rejected _ _ _ _ Hrej) as (_ & He & Hn & _).
    destruct (Cron_AddFunc _ _ _) as [[id err] e]. simpl in *. subst err.
    eexists. split; [reflexivity|]. simpl. eauto 10.
Qed.

(** *** [Remove] *)

(** C5. [Remove] of a name the registry does not hold returns the
    not-found error and changes nothing.  [Remove] of a held name returns
    no error and deletes the record; the engine is called exactly when the
    job was active, with one unregistration of the job's handle, after
    which the engine holds nothing under that handle.  For a paused job
    the engine is left alone. *)
Theorem Remove_spec name c :
  match jobs c !! name with
  | None => Remove name c = (Some (ErrJobNotFound name), c)
  | Some reg =>
      ∃ c',
        Remove name c = (None, c') ∧
        jobs c' = delete name (jobs c) ∧
        jobs c' !! name = None ∧
        calls (cr c') =
          calls (cr c) ++ (if Paused reg then [] else [CallRemove (ID reg)]) ∧
        (if Paused reg then cr c' = cr c
         else Cron_Entry (ID reg) (cr c') = None)
  end.
Proof.
  unfold Remove. destruct (jobs c !! name) as [reg|]; [|reflexivity].
  eexists. split; [reflexivity|].
  destruct (Paused reg); simpl.
  - rewrite lookup_delete_eq, app_nil_r. auto.
  - rewrite lookup_delete_eq. repeat split. apply Cron_Entry_Remove.
Qed.

(** *** [Pause], [Info] and [Continue] *)

(** C6. [Pause] of an active job returns no error, unregisters the job's
    handle from the engine, and keeps the record: [Info] afterwards
    succeeds and shows the job paused, with the name, the plan and the
    callback it had.  [Continue] then takes nothing but the name: if the
    engine accepts the stored plan, the job is registered again with the
    stored callback and is active. *)
Theorem Pause_keeps_record name c reg :
  jobs c !! name = Some reg ->
  Paused reg = false ->
  ∃ c' reg',
    Pause name c = (None, c') ∧
    Cron_Entry (ID reg) (cr c') = None ∧
    Info name c' = (reg', None) ∧
    Paused reg' = true ∧
    Plan reg' = Plan reg ∧ Name reg' = Name reg ∧
    handler reg' = handler reg ∧
    ∀ sc, engine_parse (Plan reg) = inl sc ->
      ∃ c'' reg'',
        Continue name c' = (None, c'') ∧
        Info name c'' = (reg'', None) ∧
        Paused reg'' = false ∧ Plan reg'' = Plan reg ∧
        handler reg'' = handler reg ∧
        mkEntry (ID reg'') sc (handler reg) ∈ entries (cr c'').
Proof.
  intros Hreg Hact. unfold Pause. rewrite Hreg, Hact.
  eexists _, _. split; [reflexivity|].
  split; [apply Cron_Entry_Remove|].
  unfold Info at 1. simpl. rewrite lookup_insert_eq.
  split; [reflexivity|]. simpl. repeat (split; [reflexivity|]).
  intros sc Hsc. unfold Continue. simpl. rewrite lookup_insert_eq. simpl.
  rewrite (Cron_AddFunc_accepted _ _ _ sc Hsc). simpl.
  eexists _, _. split; [reflexivity|].
  unfold Info. simpl. rewrite lookup_insert_eq.
  split; [reflexivity|]. simpl. repeat (split; [reflexivity|]).
  apply elem_of_app. right. left.
Qed.

End Registry.

Section Wrapper.
Context `{Env}.

Implicit Types (c : schedulerImpl) (name : string).

Lemma jobHandler_returns c name hh w :
  (jobHandler c name hh w).1.1 = Returned tt.
Proof.
  unfold jobHandler. destruct (lock_missing c w); [reflexivity|].
  destruct (ResolveWithError hh w) as [r w1].
  destruct r as [[err|]|v]; reflexivity.
Qed.

Lemma trigger_jobHandler c id e name hh w :
  Cron_Entry id (cr c) = Some e ->
  eJob e = JobHandlerFn name hh ->
  trigger c id w = jobHandler c name hh w.
Proof. unfold trigger. intros -> Hjob. simpl. rewrite Hjob. reflexivity. Qed.

(** C2. The closure that [Add] registers returns normally on every world
    and for every handler, whatever the handler does: a panic of the
    handler stops at the deferred [recover].  So a trigger of a job's
    entry never ends the engine's process, and the triggers that follow
    it, of the same or of other entries, are run on the world it left. *)
Theorem handler_fault_is_contained c id e name hh rest w :
  Cron_Entry id (cr c) = Some e ->
  eJob e = JobHandlerFn name hh ->
  (jobHandler c name hh w).1.1 = Returned tt ∧
  ∃ w1 l1,
    trigger c id w = (Returned tt, w1, l1) ∧
    dispatch c (id :: rest) w =
      (let '(r, w2, l2) := dispatch c rest w1 in (r, w2, l1 ++ l2)).
Proof.
  intros He Hjob. split; [apply jobHandler_returns|].
  pose proof (jobHandler_returns c name hh w) as Hret.
  pose proof (trigger_jobHandler c id e name hh w He Hjob) as Htr.
  destruct (jobHandler c name hh w) as [[r w1] l1] eqn:E. simpl in Hret.
  subst r. exists w1, l1. split; [exact Htr|].
  simpl. rewrite Htr. reflexivity.
Qed.

(** What the wrapper logs about a handler that panicked with [v]. *)
Lemma jobHandler_panic_logged c name hh w v w1 :
  lock_missing c w = false ->
  ResolveWithError hh w = (Panicked v, w1) ->
  jobHandler c name hh w =
    (Returned tt, w1,
     debugf (MsgRunning name) ++
     match v with
     | Nil => debugf (MsgStopped name)
     | _ => [Errorf (MsgStoppedWithErrors name v)]
     end).
Proof.
  intros Hlock Hrun. unfold jobHandler. rewrite Hlock, Hrun. simpl.
  destruct v; reflexivity.
Qed.

(** C7. With a lock manager configured, a trigger of a job's entry asks
    [HasLock] first.  On [false] the run is skipped: the trigger returns
    normally, the world is untouched, whatever the handler is, and the
    only line logged is the debug line of the skip, so no error is
    logged.  On [true] the handler runs: the world afterwards is the one
    the handler leaves, and the trigger returns normally. *)
Theorem lock_gates_every_run c m id e name hh w :
  distributeLockManager c = Some m ->
  Cron_Entry id (cr c) = Some e ->
  eJob e = JobHandlerFn name hh ->
  if HasLock m w
  then ∃ l, trigger c id w = (Returned tt, (ResolveWithError hh w).2, l)
  else trigger c id w = (Returned tt, w, debugf (MsgNoLock name)) ∧
       existsb is_Errorf (debugf (MsgNoLock name)) = false.
Proof.
  intros Hm He Hjob. rewrite (trigger_jobHandler c id e name hh w He Hjob).
  unfold jobHandler, lock_missing. rewrite Hm.
  destruct (HasLock m w); simpl.
  - destruct (ResolveWithError hh w) as [r w1]. simpl.
    destruct r as [[err|]|v]; simpl; eexists; reflexivity.
  - split; [reflexivity|]. unfold debugf. destruct DEBUG; reflexivity.
Qed.

(** Without a lock manager every trigger of a job's entry runs the
    handler. *)
Lemma no_lock_manager_runs_handler c id e name hh w :
  distributeLockManager c = None ->
  Cron_Entry id (cr c) = Some e ->
  eJob e = JobHandlerFn name hh ->
  ∃ l, trigger c id w = (Returned tt, (ResolveWithError hh w).2, l).
Proof.
  intros Hm He Hjob. rewrite (trigger_jobHandler c id e name hh w He Hjob).
  unfold jobHandler, lock_missing. rewrite Hm.
  destruct (ResolveWithError hh w) as [r w1]. simpl.
  destruct r as [[err|]|v]; simpl; eexists; reflexivity.
Qed.

End Wrapper.

Section JobNext.
Context `{Env}.

Implicit Types (job : Job) (sc : Schedule) (n : Z) (now : Time).

(** The loop fills the slots [i, i + fuel) of [results] with the next
    [fuel] triggers and leaves the slots before [i] alone. *)
Lemma Next_loop_fills sc fuel : ∀ (done : list Time) (t : Time),
  Next_loop sc fuel (length done) t (done ++ replicate fuel zeroTime) =
  done ++ triggers_after sc fuel t.
Proof.
  induction fuel as [|fuel IH]; intros done t; simpl; [reflexivity|].
  replace (<[length done := sched_next sc t]>
             (done ++ zeroTime :: replicate fuel zeroTime))
    with ((done ++ [sched_next sc t]) ++ replicate fuel zeroTime).
  - replace (S (length done)) with (length (done ++ [sched_next sc t])).
    + rewrite IH, <- app_assoc. reflexivity.
    + rewrite length_app. simpl. lia.
  - rewrite <- app_assoc. simpl.
    rewrite <- (Nat.add_0_r (length done)) at 1.
    rewrite insert_app_r. reflexivity.
Qed.

Lemma Next_accepted job sc n now :
  job_parse (Plan job) = inl sc ->
  0 <= n <= maxSliceLen ->
  Next job n now = Returned (triggers_after sc (Z.to_nat n) now, None).
Proof.
  intros Hsc [Hn Hmax]. unfold Next. rewrite Hsc.
  destruct (n <? 0) eqn:E; [apply Z.ltb_lt in E; lia|].
  destruct (maxSliceLen <? n) eqn:E'; [apply Z.ltb_lt in E'; lia|].
  simpl.
  pose proof (Next_loop_fills sc (Z.to_nat n) [] now) as Hfill.
  simpl in Hfill. rewrite Hfill. reflexivity.
Qed.

(** [Next] returns a list only for a length that [make] takes. *)
Lemma Next_returned_range job sc n now ts :
  job_parse (Plan job) = inl sc ->
  Next job n now = Returned (ts, None) ->
  0 <= n <= maxSliceLen.
Proof.
  intros Hsc. unfold Next. rewrite Hsc.
  destruct (n <? 0) eqn:E; [done|].
  destruct (maxSliceLen <? n) eqn:E'; [done|].
  apply Z.ltb_ge in E, E'. lia.
Qed.

Lemma length_triggers_after sc k : ∀ t, length (triggers_after sc k t) = k.
Proof. induction k as [|k IH]; intros t; simpl; [|rewrite IH]; reflexivity. Qed.

Lemma triggers_after_ascending sc k :
  (∀ t, t < sched_next sc t) ->
  ∀ t, StronglySorted Z.lt (triggers_after sc k t) ∧
       Forall (Z.lt t) (triggers_after sc k t).
Proof.
  intros Hlater. induction k as [|k IH]; intros t; simpl.
  - split; constructor.
  - destruct (IH (sched_next sc t)) as [Hsorted Hall].
    pose proof (Hlater t) as Hlt. split.
    + constructor; assumption.
    + constructor; [exact Hlt|].
      eapply Forall_impl; [exact Hall|]. simpl. intros x Hx. lia.
Qed.

Lemma triggers_after_chain sc (k : nat) : ∀ t (i : nat) x y,
  triggers_after sc k t !! i = Some x ->
  triggers_after sc k t !! S i = Some y ->
  y = sched_next sc x.
Proof.
  induction k as [|k IH]; intros t i x y; simpl; [done|].
  destruct i as [|i]; simpl.
  - intros [= <-]. destruct k as [|k]; simpl; [done|]. by intros [= <-].
  - apply IH.
Qed.

(** C8, as the code has it.  When the parser accepts the plan of a job
    and [n] is a length that [make] takes, [0 <= n <= maxSliceLen],
    [Next] returns, without an error, exactly [n] instants: the first is
    the schedule's next instant after the clock reading and each further
    one is the schedule's next instant after the one before it.  They
    are in strictly ascending order and all later than the clock reading
    whenever the schedule returns an instant later than the one it is
    given.  When the parser rejects the plan, [Next] returns the
    parser's error and no instants, for every [m]; it does not panic. *)
Theorem Next_valid_plan job sc n now :
  job_parse (Plan job) = inl sc ->
  0 <= n <= maxSliceLen ->
  (∃ ts, Next job n now = Returned (ts, None) ∧
         length ts = Z.to_nat n ∧
         (∀ x, head ts = Some x -> x = sched_next sc now) ∧
         (∀ (i : nat) x y, ts !! i = Some x -> ts !! S i = Some y ->
                           y = sched_next sc x) ∧
         ((∀ t, t < sched_next sc t) ->
          StronglySorted Z.lt ts ∧ Forall (Z.lt now) ts)) ∧
  (∀ job' err m, job_parse (Plan job') = inr err ->
                 Next job' m now = Returned ([], Some err)).
Proof.
  intros Hsc Hn. split.
  - exists (triggers_after sc (Z.to_nat n) now).
    split; [apply Next_accepted; assumption|].
    split; [apply length_triggers_after|].
    split; [|split].
    + destruct (Z.to_nat n); simpl; [done|]. by intros x [= <-].
    + apply triggers_after_chain.
    + intros Hlater. apply triggers_after_ascending, Hlater.
  - intros job' err m Herr. unfold Next. rewrite Herr. reflexivity.
Qed.

(** C9, as the code has it.  The result of [Next] is fixed by the plan of
    the job, [n] and the reading of the clock at the call: two jobs with
    one plan, whatever their other fields, asked for the same [n] at the
    same instant give the same result. *)
Theorem Next_fixed_by_plan_and_clock job job' n now :
  Plan job = Plan job' ->
  Next job n now = Next job' n now.
Proof. unfold Next. intros ->. reflexivity. Qed.

(** Whether [Next] gives an error does not depend on the clock. *)
Lemma Next_error_ignores_clock job n now now' ts err :
  Next job n now = Returned (ts, Some err) ->
  Next job n now' = Returned (ts, Some err).
Proof.
  unfold Next. destruct (job_parse (Plan job)) as [sc|e]; [|done].
  destruct ((n <? 0) || (maxSliceLen <? n)); [done|]. intros [= _ ?].
Qed.

(** C10. For a job whose plan the parser accepts and a negative [n],
    [Next] panics: it returns neither an error nor a list.  And whenever
    [Next] does return an error, it is the error of the parser for the
    job's plan. *)
Theorem Next_negative_panics job sc n now :
  job_parse (Plan job) = inl sc ->
  n < 0 ->
  (∃ v, Next job n now = Panicked v) ∧
  (∀ r, Next job n now ≠ Returned r) ∧
  (∀ job' m now' ts err,
     Next job' m now' = Returned (ts, Some err) ->
     job_parse (Plan job') = inr err).
Proof.
  intros Hsc Hn. unfold Next at 1 2. rewrite Hsc.
  apply Z.ltb_lt in Hn. rewrite Hn. simpl.
  split; [eexists; reflexivity|]. split; [discriminate|].
  intros job' m now' ts err. unfold Next.
  destruct (job_parse (Plan job')) as [sc'|e].
  - destruct ((m <? 0) || (maxSliceLen <? m)); discriminate.
  - intros [= _ ->]. reflexivity.
Qed.

End JobNext.

Section Invariant.
Context `{Env}.

Implicit Types (c : schedulerImpl) (name plan : string) (reg j : Job).

Lemma consistent_NewManager : consistent NewManager.
Proof.
  constructor; simpl; try done.
  - intros e He. by apply elem_of_nil in He.
  - intros e1 e2 He. by apply elem_of_nil in He.
Qed.

(** Records may go and the rest of the scheduler may change, as long as
    the entries and the counter stay. *)
Lemma consistent_forget c c' :
  consistent c ->
  entries (cr c') = entries (cr c) ->
  nextID (cr c') = nextID (cr c) ->
  (∀ n j, jobs c' !! n = Some j -> jobs c !! n = Some j) ->
  consistent c'.
Proof.
  intros [Hnn Hb Hu Hnm Ha Hp] He Hn Hj.
  constructor; rewrite ?He, ?Hn; eauto.
Qed.

(** A registration for the job [name], which has no active record. *)
Lemma consistent_register c c' name plan hh sc :
  consistent c ->
  (∀ reg, jobs c !! name = Some reg -> Paused reg = true) ->
  entries (cr c') =
    entries (cr c) ++ [mkEntry (nextID (cr c) + 1) sc (JobHandlerFn name hh)] ->
  nextID (cr c') = nextID (cr c) + 1 ->
  jobs c' =
    <[name := mkJob (nextID (cr c) + 1) name plan (JobHandlerFn name hh) false]>
      (jobs c) ->
  consistent c'.
Proof.
  intros [Hnn Hb Hu Hnm Ha Hp] Hfree He Hn Hj.
  constructor; rewrite ?He, ?Hn, ?Hj.
  - lia.
  - intros e [Hin|Hin]%elem_of_app.
    + apply Hb in Hin. lia.
    + apply list_elem_of_singleton in Hin. subst e. simpl. lia.
  - intros e1 e2 [H1|H1]%elem_of_app [H2|H2]%elem_of_app Heq.
    + by apply Hu.
    + apply list_elem_of_singleton in H2. subst e2. apply Hb in H1.
      simpl in Heq. lia.
    + apply list_elem_of_singleton in H1. subst e1. apply Hb in H2.
      simpl in Heq. lia.
    + apply list_elem_of_singleton in H1, H2. congruence.
  - intros n j Hl. destruct (decide (name = n)) as [->|Hne].
    + rewrite lookup_insert_eq in Hl. injection Hl as <-. simpl.
      split; [done|]. split; [by eexists|lia].
    + rewrite lookup_insert_ne in Hl by done.
      destruct (Hnm n j Hl) as (? & ? & ?). repeat split; try done; lia.
  - intros n j Hl Hact. destruct (decide (name = n)) as [->|Hne].
    + rewrite lookup_insert_eq in Hl. injection Hl as <-. simpl.
      exists sc. apply elem_of_app. right. left.
    + rewrite lookup_insert_ne in Hl by done.
      destruct (Ha n j Hl Hact) as [sc' Hin]. exists sc'.
      apply elem_of_app. by left.
  - intros n j Hl Hpaused e Hin. destruct (decide (name = n)) as [->|Hne].
    + rewrite lookup_insert_eq in Hl. injection Hl as <-. done.
    + rewrite lookup_insert_ne in Hl by done.
      apply elem_of_app in Hin as [Hin|Hin].
      * by eapply Hp.
      * apply list_elem_of_singleton in Hin. subst e. simpl.
        destruct (Hnm n j Hl) as (_ & _ & ?). lia.
Qed.

(** The registration of [getDistributeLock] by [Start]. *)
Lemma consistent_poller c c' sc :
  consistent c ->
  entries (cr c') =
    entries (cr c) ++ [mkEntry (nextID (cr c) + 1) sc GetDistributeLockFn] ->
  nextID (cr c') = nextID (cr c) + 1 ->
  jobs c' = jobs c ->
  consistent c'.
Proof.
  intros [Hnn Hb Hu Hnm Ha Hp] He Hn Hj.
  constructor; rewrite ?He, ?Hn, ?Hj.
  - lia.
  - intros e [Hin|Hin]%elem_of_app.
    + apply Hb in Hin. lia.
    + apply list_elem_of_singleton in Hin. subst e. simpl. lia.
  - intros e1 e2 [H1|H1]%elem_of_app [H2|H2]%elem_of_app Heq.
    + by apply Hu.
    + apply list_elem_of_singleton in H2. subst e2. apply Hb in H1.
      simpl in Heq. lia.
    + apply list_elem_of_singleton in H1. subst e1. apply Hb in H2.
      simpl in Heq. lia.
    + apply list_elem_of_singleton in H1, H2. congruence.
  - intros n j Hl. destruct (Hnm n j Hl) as (? & ? & ?).
    repeat split; try done; lia.
  - intros n j Hl Hact. destruct (Ha n j Hl Hact) as [sc' Hin].
    exists sc'. apply elem_of_app. by left.
  - intros n j Hl Hpaused e [Hin|Hin]%elem_of_app.
    + by eapply Hp.
    + apply list_elem_of_singleton in Hin. subst e. simpl.
      destruct (Hnm n j Hl) as (_ & _ & ?). lia.
Qed.

(** The unregistration of the active job [name]; its record goes or stays
    as a paused one. *)
Lemma consistent_unregister c c' name reg :
  consistent c ->
  jobs c !! name = Some reg ->
  Paused reg = false ->
  entries (cr c') = filter (λ x, eID x ≠ ID reg) (entries (cr c)) ->
  nextID (cr c') = nextID (cr c) ->
  (∀ n j, jobs c' !! n = Some j ->
          (n ≠ name ∧ jobs c !! n = Some j) ∨
          (n = name ∧ ID j = ID reg ∧ Name j = Name reg ∧
           handler j = handler reg ∧ Paused j = true)) ->
  consistent c'.
Proof.
  intros [Hnn Hb Hu Hnm Ha Hp] Hreg Hact He Hn Hj.
  constructor; rewrite ?He, ?Hn.
  - lia.
  - intros e [_ Hin]%list_elem_of_filter. by apply Hb.
  - intros e1 e2 [_ H1]%list_elem_of_filter [_ H2]%list_elem_of_filter.
    by apply Hu.
  - intros n j Hl. destruct (Hj n j Hl) as [[_ Hold]|(-> & Hid & Hname & Hh & _)].
    + by apply Hnm.
    + rewrite Hid, Hname, Hh. by apply Hnm.
  - intros n j Hl Hactj.
    destruct (Hj n j Hl) as [[Hne Hold]|(_ & _ & _ & _ & Hpj)]; [|congruence].
    destruct (Ha n j Hold Hactj) as [sc Hin]. exists sc.
    apply list_elem_of_filter. split; [|done]. simpl. intros Heq.
    destruct (Ha name reg Hreg Hact) as [sc' Hin'].
    assert (Hsame : mkEntry (ID j) sc (handler j)
                    = mkEntry (ID reg) sc' (handler reg))
      by (by apply Hu).
    injection Hsame as _ _ Hh.
    destruct (Hnm n j Hold) as (_ & [hh Hhh] & _).
    destruct (Hnm name reg Hreg) as (_ & [hh' Hhh'] & _).
    congruence.
  - intros n j Hl Hpj e [Hne Hin]%list_elem_of_filter.
    destruct (Hj n j Hl) as [[_ Hold]|(_ & Hid & _)].
    + by eapply Hp.
    + congruence.
Qed.

Lemma consistent_exec (k : call) c : consistent c -> consistent (exec k c).
Proof.
  intros Hc. destruct k as [name plan h|name|name|name|m|w|w]; simpl.
  - (* Add *)
    unfold Add. destruct (jobs c !! name) as [reg|] eqn:Hl; [done|].
    unfold Cron_AddFunc. destruct (engine_parse plan) as [sc|err]; simpl.
    + eapply consistent_register with (name := name); eauto.
      intros reg. rewrite Hl. done.
    + eapply consistent_forget; eauto.
  - (* Remove *)
    unfold Remove. destruct (jobs c !! name) as [reg|] eqn:Hl; [|done].
    simpl. destruct (Paused reg) eqn:Hp.
    + eapply consistent_forget; eauto. simpl.
      intros n j [_ ?]%lookup_delete_Some. done.
    + eapply consistent_unregister; eauto. simpl.
      intros n j [? ?]%lookup_delete_Some. left. done.
  - (* Pause *)
    unfold Pause. destruct (jobs c !! name) as [reg|] eqn:Hl; [|done].
    destruct (Paused reg) eqn:Hp; [done|]. simpl.
    eapply consistent_unregister; eauto. simpl.
    intros n j [[<- <-]|[? ?]]%lookup_insert_Some; [right|left]; done.
  - (* Continue *)
    unfold Continue. destruct (jobs c !! name) as [reg|] eqn:Hl; [|done].
    destruct (Paused reg) eqn:Hp; [|done]. simpl.
    destruct (jobs_named c Hc name reg Hl) as (Hname & [hh Hhh] & _).
    unfold Cron_AddFunc.
    destruct (engine_parse (Plan reg)) as [sc|err]; simpl.
    + eapply consistent_register with (name := name) (plan := Plan reg);
        eauto; simpl.
      * intros reg'. rewrite Hl. by intros [= <-].
      * rewrite Hhh. reflexivity.
      * rewrite Hhh, Hname. reflexivity.
    + eapply consistent_forget; eauto.
  - (* DistributeLockManager *)
    eapply consistent_forget; eauto.
  - (* Start *)
    unfold Start. destruct (distributeLockManager c) as [m|] eqn:Hm.
    + destruct (getDistributeLock c w) as [[r w1] l1].
      unfold Cron_AddFunc.
      destruct (engine_parse "@every 60s") as [sc|err]; simpl.
      * eapply consistent_poller; eauto.
      * eapply consistent_forget; eauto.
    + simpl. eapply consistent_forget; eauto.
  - (* Stop *)
    unfold Stop. destruct (distributeLockManager c) as [m|].
    + destruct (TryUnLock m w) as [[err|] w1]; simpl;
        eapply consistent_forget; eauto.
    + simpl. eapply consistent_forget; eauto.
Qed.

Lemma reachable_consistent c : reachable c -> consistent c.
Proof.
  induction 1 as [|k c _ IH]; [apply consistent_NewManager|].
  by apply consistent_exec.
Qed.

Lemma reachable_run (ks : list call) : reachable (run ks).
Proof.
  unfold run. generalize NewManager, reachable_new.
  induction ks as [|k ks IH]; intros c Hc; simpl; [done|].
  apply IH. by constructor.
Qed.

(** C3, as the code has it.  In every scheduler reached from a new
    manager by calls of the interface, and for every record that [Info]
    shows: the engine holds a registration under the [ID] of the record
    if and only if the record is not paused, and for an active record
    that registration is the one of the record's own callback.  The [ID]
    itself is never zero: [Pause] leaves in the record the handle of the
    registration it removed, and that handle names no entry of the
    engine any more. *)
Theorem registration_iff_active c name j :
  reachable c ->
  Info name c = (j, None) ->
  (registered c j ↔ Paused j = false) ∧
  (Paused j = false -> ∃ sc, mkEntry (ID j) sc (handler j) ∈ entries (cr c)) ∧
  (Paused j = true -> Cron_Entry (ID j) (cr c) = None) ∧
  has_handle j.
Proof.
  intros Hr%reachable_consistent. unfold Info.
  destruct (jobs c !! name) as [j'|] eqn:Hl; [|done]. intros [= ->].
  destruct Hr as [Hnn Hb Hu Hnm Ha Hp].
  split; [|split; [|split]].
  - unfold registered. split.
    + intros (e & Hin & Heq). destruct (Paused j) eqn:Hpj; [|done].
      by destruct (Hp name j Hl Hpj e Hin).
    + intros Hact. destruct (Ha name j Hl Hact) as [sc Hin].
      by eexists (mkEntry _ _ _).
  - by apply (Ha name).
  - intros Hpj. apply Cron_Entry_None. by apply (Hp name).
  - unfold has_handle. destruct (Hnm name j Hl) as (_ & _ & ?). lia.
Qed.

End Invariant.

(** * The properties on the concrete collaborators *)

Section Concrete.

Local Existing Instance Demo.env.

Lemma Add_existing_name_fails_witness :
  jobs Demo.oneJob !! "a" =
    Some (Demo.job 1 "a" "@every 5s" Demo.Panics false) ∧
  ∃ c',
    Add "a" "@every 60s" Demo.Succeeds Demo.oneJob =
      (Some (ErrJobExisted "a" 1 "@every 5s"), c') ∧
    c' = Demo.oneJob ∧
    Info "a" c' = (Demo.job 1 "a" "@every 5s" Demo.Panics false, None) ∧
    entries (cr c') = entries (cr Demo.oneJob) ∧
    calls (cr c') = calls (cr Demo.oneJob).
Proof.
  split; [vm_compute; reflexivity|].
  apply (Add_existing_name_fails Demo.oneJob "a" "@every 60s" Demo.Succeeds
           (Demo.job 1 "a" "@every 5s" Demo.Panics false)).
  vm_compute. reflexivity.
Defined.

(** A panicking run between two others: all three triggers run, and the
    world counts three handler runs. *)
Example dispatch_after_panic :
  dispatch Demo.twoJobs [2; 1; 2] Demo.locked =
    (Returned tt, Demo.mkWorld 3 true,
     [Debugf (MsgRunning "b"); Debugf (MsgStopped "b");
      Debugf (MsgRunning "a");
      Errorf (MsgStoppedWithErrors "a" (Val "boom"));
      Debugf (MsgRunning "b"); Debugf (MsgStopped "b")]).
Proof. vm_compute. reflexivity. Qed.

Lemma handler_fault_is_contained_witness :
  Cron_Entry 1 (cr Demo.twoJobs) = Some (Demo.entry 1 5 "a" Demo.Panics) ∧
  (jobHandler Demo.twoJobs "a" Demo.Panics Demo.locked).1.1 = Returned tt ∧
  ∃ w1 l1,
    trigger Demo.twoJobs 1 Demo.locked = (Returned tt, w1, l1) ∧
    dispatch Demo.twoJobs [1; 2; 1] Demo.locked =
      (let '(r, w2, l2) := dispatch Demo.twoJobs [2; 1] w1 in
       (r, w2, l1 ++ l2)).
Proof.
  split; [vm_compute; reflexivity|].
  apply (handler_fault_is_contained Demo.twoJobs 1
           (Demo.entry 1 5 "a" Demo.Panics) "a" Demo.Panics [2; 1]
           Demo.locked).
  - vm_compute. reflexivity.
  - reflexivity.
Defined.

(** The invariant of the spec fails on the code: after [Add] and [Pause]
    the record that [Info] shows is paused and still carries the handle
    1 of the registration that [Pause] removed. *)
Lemma paused_record_keeps_handle : ¬ handle_iff_active.
Proof.
  intros Hclaim.
  destruct (Hclaim Demo.pausedJob "a"
              (Demo.job 1 "a" "@every 5s" Demo.Succeeds true)) as [Hactive _].
  - apply reachable_run.
  - vm_compute. reflexivity.
  - assert (Hfalse : true = false) by (apply Hactive; discriminate).
    discriminate Hfalse.
Qed.

Lemma registration_iff_active_witness :
  Info "a" Demo.pausedJob =
    (Demo.job 1 "a" "@every 5s" Demo.Succeeds true, None) ∧
  let j := Demo.job 1 "a" "@every 5s" Demo.Succeeds true in
  (registered Demo.pausedJob j ↔ Paused j = false) ∧
  (Paused j = false ->
   ∃ sc, mkEntry (ID j) sc (handler j) ∈ entries (cr Demo.pausedJob)) ∧
  (Paused j = true -> Cron_Entry (ID j) (cr Demo.pausedJob) = None) ∧
  has_handle j.
Proof.
  split; [vm_compute; reflexivity|].
  apply (registration_iff_active Demo.pausedJob "a"
           (Demo.job 1 "a" "@every 5s" Demo.Succeeds true)).
  - apply reachable_run.
  - vm_compute. reflexivity.
Defined.

Lemma engine_rejection_leaves_registry_witness :
  (∃ c',
     Add "b" "never" Demo.Succeeds Demo.oneJob =
       (Some (ErrWrap (ErrExternal "unrecognized descriptor") msgAddFailed),
        c') ∧
     jobs c' = jobs Demo.oneJob ∧
     entries (cr c') = entries (cr Demo.oneJob) ∧
     nextID (cr c') = nextID (cr Demo.oneJob) ∧
     jobs c' !! "b" = None) ∧
  (∃ c',
     Continue "a" Demo.staleJob =
       (Some (ErrWrap (ErrExternal "unrecognized descriptor")
                msgContinueFailed), c') ∧
     jobs c' = jobs Demo.staleJob ∧
     entries (cr c') = entries (cr Demo.staleJob) ∧
     nextID (cr c') = nextID (cr Demo.staleJob) ∧
     ∃ reg, jobs Demo.staleJob !! "a" = Some reg ∧
            jobs c' !! "a" = Some reg ∧ Paused reg = true).
Proof.
  split.
  - apply (engine_rejection_leaves_registry
             (@ByAdd Demo.env "b" "never" Demo.Succeeds) Demo.oneJob
             (ErrExternal "unrecognized descriptor")).
    split; vm_compute; reflexivity.
  - apply (engine_rejection_leaves_registry
             (ByContinue "a") Demo.staleJob
             (ErrExternal "unrecognized descriptor")).
    exists (Demo.job 1 "a" "never" Demo.Succeeds true).
    repeat split; vm_compute; reflexivity.
Defined.

(** [Remove] of an active job, of a paused job and of an unknown name. *)
Example Remove_active :
  calls (cr (Remove "a" Demo.oneJob).2) =
    [CallAddFunc "@every 5s" (JobHandlerFn "a" Demo.Panics); CallRemove 1].
Proof. vm_compute. reflexivity. Qed.

Example Remove_paused :
  (Remove "a" Demo.pausedJob).1 = None ∧
  calls (cr (Remove "a" Demo.pausedJob).2) = calls (cr Demo.pausedJob) ∧
  jobs (Remove "a" Demo.pausedJob).2 !! "a" = None.
Proof. vm_compute. auto. Qed.

Example Remove_unknown :
  Remove "b" Demo.oneJob = (Some (ErrJobNotFound "b"), Demo.oneJob).
Proof. vm_compute. reflexivity. Qed.

Lemma Pause_keeps_record_witness :
  jobs Demo.oneJob !! "a" =
    Some (Demo.job 1 "a" "@every 5s" Demo.Panics false) ∧
  ∃ c' reg',
    Pause "a" Demo.oneJob = (None, c') ∧
    Cron_Entry 1 (cr c') = None ∧
    Info "a" c' = (reg', None) ∧
    Paused reg' = true ∧
    Plan reg' = "@every 5s" ∧ Name reg' = "a" ∧
    handler reg' = JobHandlerFn "a" Demo.Panics ∧
    ∀ sc, Demo.parse "@every 5s" = inl sc ->
      ∃ c'' reg'',
        Continue "a" c' = (None, c'') ∧
        Info "a" c'' = (reg'', None) ∧
        Paused reg'' = false ∧ Plan reg'' = "@every 5s" ∧
        handler reg'' = JobHandlerFn "a" Demo.Panics ∧
        mkEntry (ID reg'') sc (JobHandlerFn "a" Demo.Panics)
          ∈ entries (cr c'').
Proof.
  split; [vm_compute; reflexivity|].
  apply (Pause_keeps_record "a" Demo.oneJob
           (Demo.job 1 "a" "@every 5s" Demo.Panics false)).
  - vm_compute. reflexivity.
  - reflexivity.
Defined.

Lemma lock_gates_every_run_witness :
  (trigger Demo.twoJobs 1 Demo.unlocked =
     (Returned tt, Demo.unlocked, debugf (MsgNoLock "a")) ∧
   existsb is_Errorf (debugf (MsgNoLock "a")) = false) ∧
  (∃ l, trigger Demo.twoJobs 1 Demo.locked =
          (Returned tt, (Demo.resolve Demo.Panics Demo.locked).2, l)).
Proof.
  split.
  - apply (lock_gates_every_run Demo.twoJobs Demo.lockManager 1
             (Demo.entry 1 5 "a" Demo.Panics) "a" Demo.Panics Demo.unlocked).
    + vm_compute. reflexivity.
    + vm_compute. reflexivity.
    + reflexivity.
  - apply (lock_gates_every_run Demo.twoJobs Demo.lockManager 1
             (Demo.entry 1 5 "a" Demo.Panics) "a" Demo.Panics Demo.locked).
    + vm_compute. reflexivity.
    + vm_compute. reflexivity.
    + reflexivity.
Defined.

(** The example of the spec: three triggers of a five-second schedule. *)
Example Next_every_5s (t : Time) :
  Next (Demo.job 1 "a" "@every 5s" Demo.Succeeds false) 3 t =
    Returned ([t + 5; t + 5 + 5; t + 5 + 5 + 5], None).
Proof. reflexivity. Qed.

Lemma Next_valid_plan_witness :
  (∃ ts, Next (Demo.job 1 "a" "@every 5s" Demo.Succeeds false) 3 100 =
           Returned (ts, None) ∧
         length ts = 3%nat ∧
         (∀ x, head ts = Some x -> x = 100 + 5) ∧
         (∀ (i : nat) x y, ts !! i = Some x -> ts !! S i = Some y ->
                           y = x + 5) ∧
         ((∀ t, t < t + 5) ->
          StronglySorted Z.lt ts ∧ Forall (Z.lt 100) ts)) ∧
  (∀ job' err m, Demo.parse (Plan job') = inr err ->
                 Next job' m 100 = Returned ([], Some err)).
Proof.
  apply (Next_valid_plan
           (Demo.job 1 "a" "@every 5s" Demo.Succeeds false) 5 3 100).
  - reflexivity.
  - vm_compute. split; discriminate.
Defined.

(** The plan of the 30th of February is accepted and never fires: the
    two instants that [Next] returns are both the zero time. *)
Example Next_unsatisfiable :
  @Next Calendar.env (Calendar.job "0 0 0 30 2 *") 2 100 =
    Returned ([0; 0], None).
Proof. vm_compute. reflexivity. Qed.

(** A length that [make] does not take. *)
Example Next_too_long :
  @Next Calendar.env (Calendar.job "@every 5s") (2 ^ 44) 100 =
    Panicked (Val "runtime error: makeslice: len out of range").
Proof. vm_compute. reflexivity. Qed.

(** The sentence of the spec fails twice on the code: for an accepted
    plan that never fires the instants returned are not ascending, and
    for an accepted plan and [n = 2^44] nothing is returned. *)
Lemma Next_not_always_ascending :
  ¬ @Next_lists_ascending Calendar.env ∧
  ¬ (∃ ts, @Next Calendar.env (Calendar.job "0 0 0 30 2 *") 2 100 =
             Returned (ts, None) ∧ StronglySorted Z.lt ts) ∧
  ¬ (∃ ts, @Next Calendar.env (Calendar.job "@every 5s") (2 ^ 44) 100 =
             Returned (ts, None)).
Proof.
  assert (Hfeb : ¬ (∃ ts, @Next Calendar.env (Calendar.job "0 0 0 30 2 *")
                            2 100 = Returned (ts, None)
                          ∧ StronglySorted Z.lt ts)).
  { intros (ts & Hts & Hsorted). rewrite Next_unsatisfiable in Hts.
    injection Hts as <-. inversion Hsorted as [|? ? _ Hall]. subst.
    inversion Hall as [|? ? Hlt _]. subst. lia. }
  split; [|split; [exact Hfeb|]].
  - intros Hclaim.
    destruct (Hclaim (Calendar.job "0 0 0 30 2 *") Calendar.Unsatisfiable
                2 100 eq_refl ltac:(lia)) as (ts & Hts & _ & Hsorted).
    apply Hfeb. by exists ts.
  - intros (ts & Hts). rewrite Next_too_long in Hts. discriminate Hts.
Qed.

(** [Next] reads the clock: the same job asked for one trigger at the
    instants 0 and 1 answers 5 and 6. *)
Lemma Next_reads_clock : ¬ Next_ignores_clock.
Proof.
  intros Hclaim.
  specialize (Hclaim (Demo.job 1 "a" "@every 5s" Demo.Succeeds false) 1 0 1).
  vm_compute in Hclaim. discriminate Hclaim.
Qed.

Lemma Next_fixed_by_plan_and_clock_witness :
  Next (Demo.job 1 "a" "@every 5s" Demo.Succeeds false) 2 7 =
  Next (Demo.job 9 "b" "@every 5s" Demo.Panics true) 2 7.
Proof.
  apply (Next_fixed_by_plan_and_clock
           (Demo.job 1 "a" "@every 5s" Demo.Succeeds false)
           (Demo.job 9 "b" "@every 5s" Demo.Panics true) 2 7).
  reflexivity.
Defined.

Lemma Next_negative_panics_witness :
  (∃ v, Next (Demo.job 1 "a" "@every 5s" Demo.Succeeds false) (-1) 0 =
          Panicked v) ∧
  (∀ r, Next (Demo.job 1 "a" "@every 5s" Demo.Succeeds false) (-1) 0
          ≠ Returned r) ∧
  (∀ job' m now' ts err,
     Next job' m now' = Returned (ts, Some err) ->
     Demo.parse (Plan job') = inr err).
Proof.
  apply (Next_negative_panics
           (Demo.job 1 "a" "@every 5s" Demo.Succeeds false) 5 (-1) 0).
  - reflexivity.
  - lia.
Defined.

End Concrete.

(** * More of the registry *)

Section Operations.
Context `{Env}.

Implicit Types (c : schedulerImpl) (name plan : string) (reg j : Job).

(** A second [Pause] in a row does what the first did and answers what
    the first answered: the not-found error both times, or no error and
    the scheduler as the first call left it. *)
Theorem Pause_idempotent name c :
  Pause name (Pause name c).2 = Pause name c.
Proof.
  destruct (Pause name c) as [r c1] eqn:E. simpl.
  unfold Pause in E. destruct (jobs c !! name) as [reg|] eqn:Hl.
  - destruct (Paused reg) eqn:Hp; simpl in E.
    + injection E as <- <-. unfold Pause. rewrite Hl, Hp. reflexivity.
    + injection E as <- <-. unfold Pause. simpl.
      rewrite lookup_insert_eq. reflexivity.
  - injection E as <- <-. unfold Pause. rewrite Hl. reflexivity.
Qed.

(** After a [Continue] that gave no error, a second [Continue] gives no
    error either and changes nothing; in particular it does not register
    the job a second time. *)
Theorem Continue_idempotent name c :
  (Continue name c).1 = None ->
  Continue name (Continue name c).2 = (None, (Continue name c).2).
Proof.
  destruct (Continue name c) as [r c1] eqn:E. simpl. intros ->.
  unfold Continue in E. destruct (jobs c !! name) as [reg|] eqn:Hl; [|done].
  destruct (Paused reg) eqn:Hp; simpl in E.
  - destruct (Cron_AddFunc _ _ _) as [[id [err|]] e]; [done|].
    injection E as <-. unfold Continue. simpl.
    rewrite lookup_insert_eq. reflexivity.
  - injection E as <-. unfold Continue. rewrite Hl, Hp. reflexivity.
Qed.

(** [Remove], [Pause] and [Info] give an error exactly for a name the
    registry does not hold, and [Continue] gives the same error for such
    a name; the error is the not-found error of that name and the
    scheduler is left as it was. *)
Theorem not_found_iff_absent name c :
  ((Remove name c).1 = None ↔ is_Some (jobs c !! name)) ∧
  ((Pause name c).1 = None ↔ is_Some (jobs c !! name)) ∧
  ((Info name c).2 = None ↔ is_Some (jobs c !! name)) ∧
  ((Continue name c).1 = None -> is_Some (jobs c !! name)) ∧
  (jobs c !! name = None ->
   Remove name c = (Some (ErrJobNotFound name), c) ∧
   Pause name c = (Some (ErrJobNotFound name), c) ∧
   Continue name c = (Some (ErrJobNotFound name), c) ∧
   Info name c = (zeroJob, Some (ErrJobNotFound name))).
Proof.
  unfold Remove, Pause, Continue, Info.
  destruct (jobs c !! name) as [reg|] eqn:Hl.
  - repeat split; try done; try (intros _; by eexists).
    destruct (Paused reg); simpl; done.
  - repeat split; try done; by intros [? ?].
Qed.

(** Either the call works on [name] or the record under [name] is what
    it was. *)
Lemma exec_lookup_cases (k : call) c name :
  target k = Some name ∨ jobs (exec k c) !! name = jobs c !! name.
Proof.
  destruct (decide (target k = Some name)) as [Ht|Hne]; [by left|right].
  destruct k as [n plan h|n|n|n|m|w|w]; simpl in *.
  - assert (n ≠ name) by congruence. unfold Add.
    destruct (jobs c !! n); [done|].
    destruct (Cron_AddFunc _ _ _) as [[id [err|]] e]; simpl; [done|].
    by rewrite lookup_insert_ne.
  - assert (n ≠ name) by congruence. unfold Remove.
    destruct (jobs c !! n) as [reg|]; [|done]. simpl.
    destruct (Paused reg); simpl; by rewrite lookup_delete_ne.
  - assert (n ≠ name) by congruence. unfold Pause.
    destruct (jobs c !! n) as [reg|]; [|done].
    destruct (Paused reg); simpl; [done|]. by rewrite lookup_insert_ne.
  - assert (n ≠ name) by congruence. unfold Continue.
    destruct (jobs c !! n) as [reg|]; [|done].
    destruct (Paused reg); simpl; [|done].
    destruct (Cron_AddFunc _ _ _) as [[id [err|]] e]; simpl; [done|].
    by rewrite lookup_insert_ne.
  - done.
  - unfold Start. destruct (distributeLockManager c); [|done].
    destruct (getDistributeLock c w) as [[r w1] l1].
    destruct (Cron_AddFunc _ _ _) as [[id err] e]. done.
  - unfold Stop. destruct (distributeLockManager c) as [m|]; [|done].
    destruct (TryUnLock m w) as [[err|] w1]; done.
Qed.

(** A call leaves alone every record under a name it does not work on:
    [Add], [Remove], [Pause] and [Continue] of one name do not touch the
    records of the others, and the lock-manager setter, [Start] and
    [Stop] touch no record at all.  The same holds for what [Info]
    answers under such a name. *)
Theorem other_records_untouched (k : call) c name :
  target k ≠ Some name ->
  jobs (exec k c) !! name = jobs c !! name ∧
  Info name (exec k c) = Info name c.
Proof.
  intros Hne. destruct (exec_lookup_cases k c name) as [Ht|Heq]; [done|].
  split; [exact Heq|]. unfold Info. rewrite Heq. reflexivity.
Qed.

(** No call of the interface changes the name, the plan or the callback
    of a record that is in the registry before and after the call; only
    its handle and its paused flag move. *)
Theorem record_fields_immutable (k : call) c name j j' :
  jobs c !! name = Some j ->
  jobs (exec k c) !! name = Some j' ->
  Name j' = Name j ∧ Plan j' = Plan j ∧ handler j' = handler j.
Proof.
  intros Hj Hj'. destruct (decide (target k = Some name)) as [Ht|Ht].
  - destruct k as [n plan h|n|n|n|m|w|w]; simpl in *; simplify_eq.
    + unfold Add in Hj'. rewrite Hj in Hj'. simpl in Hj'. by simplify_eq.
    + unfold Remove in Hj'. rewrite Hj in Hj'. simpl in Hj'.
      destruct (Paused j); simpl in Hj'; by rewrite lookup_delete_eq in Hj'.
    + unfold Pause in Hj'. rewrite Hj in Hj'.
      destruct (Paused j); simpl in Hj'; [by simplify_eq|].
      rewrite lookup_insert_eq in Hj'. by simplify_eq.
    + unfold Continue in Hj'. rewrite Hj in Hj'.
      destruct (Paused j); simpl in Hj'; [|by simplify_eq].
      destruct (Cron_AddFunc _ _ _) as [[id [err|]] e]; simpl in Hj';
        [by simplify_eq|].
      rewrite lookup_insert_eq in Hj'. by simplify_eq.
  - destruct (exec_lookup_cases k c name) as [?|Heq]; [done|].
    rewrite Heq in Hj'. by simplify_eq.
Qed.

Lemma Add_ok_iff name plan h c :
  (Add name plan h c).1 = None ↔
  jobs c !! name = None ∧ ∃ sc, engine_parse plan = inl sc.
Proof.
  unfold Add, Cron_AddFunc. destruct (jobs c !! name) as [reg|]; simpl.
  - split; [done|]. by intros [? _].
  - destruct (engine_parse plan) as [sc|err]; simpl.
    + split; [|done]. intros _. split; [done|by eexists].
    + split; [done|]. by intros [_ [? ?]].
Qed.

(** [Add] gives no error exactly when the name is free and the engine
    accepts the plan.  It then puts under the name an active record with
    the plan and the handle the engine gave, appends the registration of
    the job's callback to the entries of the engine, and keeps every
    entry that was there. *)
Theorem Add_succeeds_iff name plan h c :
  ((Add name plan h c).1 = None ↔
   jobs c !! name = None ∧ ∃ sc, engine_parse plan = inl sc) ∧
  (∀ sc, jobs c !! name = None -> engine_parse plan = inl sc ->
     let c' := (Add name plan h c).2 in
     Info name c' =
       (mkJob (nextID (cr c) + 1) name plan (JobHandlerFn name (hh_of h)) false,
        None) ∧
     entries (cr c') =
       entries (cr c) ++
       [mkEntry (nextID (cr c) + 1) sc (JobHandlerFn name (hh_of h))] ∧
     distributeLockManager c' = distributeLockManager c).
Proof.
  split; [apply Add_ok_iff|].
  intros sc Hfree Hsc. unfold Add, Info. rewrite Hfree.
  rewrite (Cron_AddFunc_accepted _ _ _ sc Hsc). simpl.
  rewrite lookup_insert_eq. done.
Qed.

(** [MustAdd] changes the scheduler as [Add] does; it returns normally
    when the name is free and the engine accepts the plan, and in every
    other case it panics with the error of [Add]. *)
Theorem MustAdd_panics_iff name plan h c :
  (MustAdd name plan h c).2 = (Add name plan h c).2 ∧
  ((MustAdd name plan h c).1 = Returned tt ↔
   jobs c !! name = None ∧ ∃ sc, engine_parse plan = inl sc) ∧
  (∀ err, (Add name plan h c).1 = Some err ->
          (MustAdd name plan h c).1 = Panicked (ErrVal err)).
Proof.
  pose proof (Add_ok_iff name plan h c) as Hiff.
  unfold MustAdd. destruct (Add name plan h c) as [[err|] c']; simpl in *.
  - split; [done|]. split; [|by intros ? [= ->]].
    split; [done|]. intros Hok. apply Hiff in Hok. done.
  - split; [done|]. split; [|done]. split; [|done]. intros _. by apply Hiff.
Qed.

(** Jobs under two different free names, with plans the engine accepts,
    are both added, in either order of the names, and both are active
    afterwards with different handles. *)
Theorem Add_two_names n1 n2 p1 p2 h1 h2 sc1 sc2 c :
  n1 ≠ n2 ->
  jobs c !! n1 = None -> jobs c !! n2 = None ->
  engine_parse p1 = inl sc1 -> engine_parse p2 = inl sc2 ->
  let c1 := (Add n1 p1 h1 c).2 in
  let c2 := (Add n2 p2 h2 c1).2 in
  (Add n1 p1 h1 c).1 = None ∧ (Add n2 p2 h2 c1).1 = None ∧
  ∃ j1 j2,
    Info n1 c2 = (j1, None) ∧ Info n2 c2 = (j2, None) ∧
    Paused j1 = false ∧ Paused j2 = false ∧
    Plan j1 = p1 ∧ Plan j2 = p2 ∧ ID j1 ≠ ID j2.
Proof.
  intros Hne Hf1 Hf2 Hs1 Hs2. simpl.
  destruct (Add n1 p1 h1 c) as [r1 c1] eqn:E1. unfold Add in E1.
  rewrite Hf1, (Cron_AddFunc_accepted _ _ _ sc1 Hs1) in E1. simpl in E1.
  injection E1 as <- <-. simpl. split; [done|].
  match goal with |- context [Add n2 p2 h2 ?s] => set (c1 := s) end.
  assert (Hf2' : jobs c1 !! n2 = None)
    by (unfold c1; simpl; by rewrite lookup_insert_ne).
  destruct (Add n2 p2 h2 c1) as [r2 c2] eqn:E2. unfold Add in E2.
  rewrite Hf2', (Cron_AddFunc_accepted _ _ _ sc2 Hs2) in E2. simpl in E2.
  injection E2 as <- <-. simpl. split; [done|].
  unfold Info. simpl. rewrite lookup_insert_ne by done.
  rewrite !lookup_insert_eq.
  eexists _, _. repeat split; simpl. lia.
Qed.

End Operations.

Section Ownership.
Context `{Env}.

Implicit Types (c : schedulerImpl) (name plan : string) (reg j : Job).

Lemma filter_all {A : Type} (P : A -> Prop) `{!∀ x, Decision (P x)}
    (l : list A) :
  (∀ x, x ∈ l -> P x) -> filter P l = l.
Proof.
  induction l as [|x l IH]; intros Hall; [done|].
  rewrite filter_cons_True by (apply Hall; left).
  rewrite IH; [done|]. intros y Hy. apply Hall. by right.
Qed.

Lemma owned_NewManager : owned NewManager.
Proof. intros e He. by apply elem_of_nil in He. Qed.

(** An accounted entry stays accounted when the record of its job is
    still there. *)
Lemma owns_transfer c c' e :
  owns c e ->
  (∀ n hh j, eJob e = JobHandlerFn n hh -> jobs c !! n = Some j ->
             Paused j = false -> ID j = eID e -> jobs c' !! n = Some j) ->
  owns c' e.
Proof.
  unfold owns. destruct (eJob e) as [|n hh|] eqn:Hjob; try done.
  intros (j & Hl & Hact & Hid & Hh) Hkeep. exists j.
  split; [by eapply Hkeep|done].
Qed.

Lemma owned_exec (k : call) c :
  consistent c -> owned c -> owned (exec k c).
Proof.
  intros Hc Ho. destruct k as [name plan h|name|name|name|m|w|w]; simpl.
  - (* Add *)
    unfold Add. destruct (jobs c !! name) as [reg|] eqn:Hl; [done|].
    unfold Cron_AddFunc. destruct (engine_parse plan) as [sc|err]; simpl.
    + intros e [Hin|Hin]%elem_of_app.
      * apply (owns_transfer c); [by apply Ho|]. simpl.
        intros n hh j _ Hj _ _. rewrite lookup_insert_ne; [done|].
        intros ->. congruence.
      * apply list_elem_of_singleton in Hin. subst e. unfold owns. simpl.
        eexists. rewrite lookup_insert_eq. done.
    + intros e Hin. apply (owns_transfer c); [by apply Ho|]. done.
  - (* Remove *)
    unfold Remove. destruct (jobs c !! name) as [reg|] eqn:Hl; [|done].
    simpl. destruct (Paused reg) eqn:Hp; simpl.
    + intros e Hin. apply (owns_transfer c); [by apply Ho|]. simpl.
      intros n hh j _ Hj Hact _. rewrite lookup_delete_ne; [done|].
      intros ->. congruence.
    + intros e [Hne Hin]%list_elem_of_filter.
      apply (owns_transfer c); [by apply Ho|]. simpl.
      intros n hh j _ Hj _ Hid. rewrite lookup_delete_ne; [done|].
      intros ->. congruence.
  - (* Pause *)
    unfold Pause. destruct (jobs c !! name) as [reg|] eqn:Hl; [|done].
    destruct (Paused reg) eqn:Hp; [done|]. simpl.
    intros e [Hne Hin]%list_elem_of_filter.
    apply (owns_transfer c); [by apply Ho|]. simpl.
    intros n hh j _ Hj _ Hid. rewrite lookup_insert_ne; [done|].
    intros ->. congruence.
  - (* Continue *)
    unfold Continue. destruct (jobs c !! name) as [reg|] eqn:Hl; [|done].
    destruct (Paused reg) eqn:Hp; [|done]. simpl.
    destruct (jobs_named c Hc name reg Hl) as (Hname & [hh Hhh] & _).
    unfold Cron_AddFunc.
    destruct (engine_parse (Plan reg)) as [sc|err]; simpl.
    + intros e [Hin|Hin]%elem_of_app.
      * apply (owns_transfer c); [by apply Ho|]. simpl.
        intros n hh' j _ Hj Hact _. rewrite lookup_insert_ne; [done|].
        intros ->. congruence.
      * apply list_elem_of_singleton in Hin. subst e. unfold owns.
        cbn [eJob eID]. destruct (handler reg) as [|n hh'|] eqn:Hreg;
          [done| |done].
        injection Hhh as -> ->. eexists. simpl. rewrite lookup_insert_eq. done.
    + intros e Hin. apply (owns_transfer c); [by apply Ho|]. done.
  - (* DistributeLockManager *)
    intros e Hin. apply (owns_transfer c); [by apply Ho|]. done.
  - (* Start *)
    unfold Start. destruct (distributeLockManager c) as [m|] eqn:Hm.
    + destruct (getDistributeLock c w) as [[r w1] l1].
      unfold Cron_AddFunc.
      destruct (engine_parse "@every 60s") as [sc|err]; simpl.
      * intros e [Hin|Hin]%elem_of_app.
        -- apply (owns_transfer c); [by apply Ho|]. done.
        -- apply list_elem_of_singleton in Hin. by subst e.
      * intros e Hin. apply (owns_transfer c); [by apply Ho|]. done.
    + intros e Hin. apply (owns_transfer c); [by apply Ho|]. done.
  - (* Stop *)
    unfold Stop. destruct (distributeLockManager c) as [m|].
    + destruct (TryUnLock m w) as [[err|] w1]; simpl;
        intros e Hin; (apply (owns_transfer c); [by apply Ho|]); done.
    + intros e Hin. apply (owns_transfer c); [by apply Ho|]. done.
Qed.

Lemma reachable_owned c : reachable c -> owned c.
Proof.
  induction 1 as [|k c Hr IH]; [apply owned_NewManager|].
  apply owned_exec; [by apply reachable_consistent|done].
Qed.

Lemma owned_job_entry c e name hh :
  reachable c ->
  e ∈ entries (cr c) ->
  eJob e = JobHandlerFn name hh ->
  ∃ j, jobs c !! name = Some j ∧ Paused j = false ∧
       ID j = eID e ∧ handler j = JobHandlerFn name hh.
Proof.
  intros Hr Hin Hjob. pose proof (reachable_owned c Hr e Hin) as Ho.
  unfold owns in Ho. rewrite Hjob in Ho. exact Ho.
Qed.

(** In every scheduler reached through the interface, an entry of the
    engine that runs the callback of the job [name] belongs to an active
    record under [name] that carries the entry's handle.  So the engine
    holds no registration of a job that was removed or is paused. *)
Theorem job_entries_have_active_records c e name hh :
  reachable c ->
  e ∈ entries (cr c) ->
  eJob e = JobHandlerFn name hh ->
  ∃ j, Info name c = (j, None) ∧ Paused j = false ∧
       ID j = eID e ∧ handler j = JobHandlerFn name hh.
Proof.
  intros Hr Hin Hjob.
  destruct (owned_job_entry c e name hh Hr Hin Hjob)
    as (j & Hl & Hact & Hid & Hh).
  exists j. unfold Info. rewrite Hl. done.
Qed.

(** After [Remove] and after [Pause] of a name, whatever they answer, no
    entry of the engine runs the callback of that name any more. *)
Theorem stopped_job_has_no_entry c name :
  reachable c ->
  (∀ e hh, e ∈ entries (cr (Remove name c).2) ->
           eJob e ≠ JobHandlerFn name hh) ∧
  (∀ e hh, e ∈ entries (cr (Pause name c).2) ->
           eJob e ≠ JobHandlerFn name hh).
Proof.
  intros Hr. split; intros e hh Hin Hjob.
  - assert (Hr' : reachable (exec (CRemove name) c)) by by constructor.
    destruct (owned_job_entry _ e name hh Hr' Hin Hjob) as (j & Hl' & _).
    simpl in Hl'. unfold Remove in Hl'.
    destruct (jobs c !! name) as [reg|] eqn:Hl; simpl in Hl'.
    + destruct (Paused reg); simpl in Hl';
        by rewrite lookup_delete_eq in Hl'.
    + congruence.
  - assert (Hr' : reachable (exec (CPause name) c)) by by constructor.
    destruct (owned_job_entry _ e name hh Hr' Hin Hjob)
      as (j & Hl' & Hact & _).
    simpl in Hl'. unfold Pause in Hl'.
    destruct (jobs c !! name) as [reg|] eqn:Hl; simpl in Hl'.
    + destruct (Paused reg) eqn:Hp; simpl in Hl'.
      * congruence.
      * rewrite lookup_insert_eq in Hl'. injection Hl' as <-. done.
    + congruence.
Qed.

(** A job is registered at most once: two entries of the engine that run
    the callback of one name are the same entry. *)
Theorem single_registration c e1 e2 name hh1 hh2 :
  reachable c ->
  e1 ∈ entries (cr c) -> e2 ∈ entries (cr c) ->
  eJob e1 = JobHandlerFn name hh1 ->
  eJob e2 = JobHandlerFn name hh2 ->
  e1 = e2.
Proof.
  intros Hr H1 H2 Hj1 Hj2.
  destruct (owned_job_entry c e1 name hh1 Hr H1 Hj1)
    as (j1 & Hi1 & _ & Hid1 & _).
  destruct (owned_job_entry c e2 name hh2 Hr H2 Hj2)
    as (j2 & Hi2 & _ & Hid2 & _).
  rewrite Hi1 in Hi2. injection Hi2 as <-.
  apply (entries_unique c (reachable_consistent c Hr)); [done..|congruence].
Qed.

(** The handle of an active record is the handle of no other record,
    active or paused. *)
Theorem live_handle_not_shared c n1 n2 j1 j2 :
  reachable c ->
  n1 ≠ n2 ->
  jobs c !! n1 = Some j1 -> jobs c !! n2 = Some j2 ->
  Paused j1 = false ->
  ID j1 ≠ ID j2.
Proof.
  intros Hr Hne Hl1 Hl2 Hact1 Heq.
  pose proof (reachable_consistent c Hr) as [Hnn Hb Hu Hnm Ha Hp].
  destruct (Ha n1 j1 Hl1 Hact1) as [sc1 Hin1].
  destruct (Paused j2) eqn:Hp2.
  - by apply (Hp n2 j2 Hl2 Hp2 _ Hin1).
  - destruct (Ha n2 j2 Hl2 Hp2) as [sc2 Hin2].
    assert (Hsame : mkEntry (ID j1) sc1 (handler j1)
                    = mkEntry (ID j2) sc2 (handler j2)) by (by apply Hu).
    injection Hsame as _ _ Hh.
    destruct (Hnm n1 j1 Hl1) as (_ & [hh1 Hh1] & _).
    destruct (Hnm n2 j2 Hl2) as (_ & [hh2 Hh2] & _).
    congruence.
Qed.

(** [Add] and then [Remove] of a free name, on a scheduler reached
    through the interface: the job map and the entries of the engine are
    what they were before the two calls; only the handle counter has
    moved on by one. *)
Theorem Add_Remove_roundtrip c name plan h sc :
  reachable c ->
  jobs c !! name = None ->
  engine_parse plan = inl sc ->
  let c1 := (Add name plan h c).2 in
  let c2 := (Remove name c1).2 in
  (Remove name c1).1 = None ∧
  jobs c2 = jobs c ∧
  entries (cr c2) = entries (cr c) ∧
  nextID (cr c2) = nextID (cr c) + 1.
Proof.
  intros Hr Hfree Hsc. simpl.
  destruct (Add name plan h c) as [r1 c1] eqn:E1. unfold Add in E1.
  rewrite Hfree, (Cron_AddFunc_accepted _ _ _ sc Hsc) in E1. simpl in E1.
  injection E1 as <- <-. simpl.
  unfold Remove. simpl. rewrite lookup_insert_eq. simpl.
  split; [done|]. split; [by apply delete_insert_id|]. split; [|done].
  rewrite filter_app, (filter_cons_False _ _ []) by (simpl; tauto).
  rewrite filter_nil, app_nil_r. apply filter_all. intros e He.
  apply (entries_bounded c (reachable_consistent c Hr)) in He. lia.
Qed.

(** [Pause] and then [Continue] of an active job whose plan the engine
    accepts: the record is active again with the name, plan and callback
    it had, under a new handle that differs from the old one; the engine
    holds nothing under the old handle and one entry more than after the
    [Pause]. *)
Theorem Pause_Continue_fresh_handle c name reg sc :
  reachable c ->
  jobs c !! name = Some reg ->
  Paused reg = false ->
  engine_parse (Plan reg) = inl sc ->
  let c1 := (Pause name c).2 in
  let c2 := (Continue name c1).2 in
  (Continue name c1).1 = None ∧
  Info name c2 =
    (mkJob (nextID (cr c) + 1) (Name reg) (Plan reg) (handler reg) false,
     None) ∧
  nextID (cr c) + 1 ≠ ID reg ∧
  Cron_Entry (ID reg) (cr c2) = None ∧
  entries (cr c2) =
    filter (λ x, eID x ≠ ID reg) (entries (cr c)) ++
    [mkEntry (nextID (cr c) + 1) sc (handler reg)].
Proof.
  intros Hr Hl Hact Hsc. simpl.
  destruct (jobs_named c (reachable_consistent c Hr) name reg Hl)
    as (_ & _ & Hid).
  unfold Pause. rewrite Hl, Hact. simpl.
  unfold Continue. simpl. rewrite lookup_insert_eq. simpl.
  rewrite (Cron_AddFunc_accepted _ _ _ sc Hsc). simpl.
  split; [done|]. unfold Info. simpl. rewrite lookup_insert_eq.
  split; [done|]. split; [lia|]. split; [|done].
  apply Cron_Entry_None. simpl.
  intros e [[Hne _]%list_elem_of_filter|Hin]%elem_of_app; [done|].
  apply list_elem_of_singleton in Hin. subst e. simpl. lia.
Qed.

End Ownership.

Section Engine.
Context `{Env}.

Implicit Types (c : schedulerImpl) (name : string) (w : World).

(** While this process does not hold the lock, triggers of job entries
    change nothing: after any sequence of them the world is the one
    before, no trigger has panicked and no error line is logged. *)
Theorem dispatch_without_lock c m (ids : list EntryID) w :
  distributeLockManager c = Some m ->
  HasLock m w = false ->
  (∀ id, id ∈ ids -> job_entry c id) ->
  ∃ l, dispatch c ids w = (Returned tt, w, l) ∧ existsb is_Errorf l = false.
Proof.
  intros Hm Hlock. induction ids as [|id ids IH]; intros Hjobs.
  - exists []. done.
  - destruct IH as (l & Hl & Hnoerr).
    { intros id' Hin. apply Hjobs. by right. }
    assert (Htr : trigger c id w = (Returned tt, w, [])
                  ∨ ∃ n, trigger c id w = (Returned tt, w, debugf (MsgNoLock n))).
    { unfold trigger. destruct (Cron_Entry id (cr c)) as [e|] eqn:He; [|by left].
      right. destruct (Hjobs id (ltac:(left)) e He) as (n & hh & Hjob).
      exists n. unfold run_cronFunc. rewrite Hjob.
      unfold jobHandler, lock_missing. rewrite Hm, Hlock. reflexivity. }
    simpl. destruct Htr as [->|[n ->]]; rewrite Hl.
    + exists l. done.
    + eexists. split; [reflexivity|]. rewrite existsb_app, Hnoerr.
      unfold debugf. destruct DEBUG; reflexivity.
Qed.

End Engine.

Section MoreNext.
Context `{Env}.

Implicit Types (job : Job) (sc : Schedule) (n m : Z) (now : Time).

Lemma triggers_after_prefix sc (k d : nat) : ∀ t,
  triggers_after sc k t `prefix_of` triggers_after sc (k + d) t.
Proof.
  induction k as [|k IH]; intros t; simpl; [apply prefix_nil|].
  apply prefix_cons, IH.
Qed.

(** Asking [Next] for more triggers only adds triggers at the end: for a
    plan the parser accepts and [0 <= n <= m], with [m] a length that
    [make] takes, the list for [n] is a prefix of the list for [m] taken
    at the same instant. *)
Theorem Next_more_extends job sc n m now :
  job_parse (Plan job) = inl sc ->
  0 <= n <= m ->
  m <= maxSliceLen ->
  ∃ ts tm,
    Next job n now = Returned (ts, None) ∧
    Next job m now = Returned (tm, None) ∧
    ts `prefix_of` tm.
Proof.
  intros Hsc [Hn Hm] Hmax.
  exists (triggers_after sc (Z.to_nat n) now),
         (triggers_after sc (Z.to_nat m) now).
  split; [apply Next_accepted; [done|lia]|].
  split; [apply Next_accepted; [done|lia]|].
  replace (Z.to_nat m) with (Z.to_nat n + (Z.to_nat m - Z.to_nat n))%nat by lia.
  apply triggers_after_prefix.
Qed.

(** The list that [Next] returns is the chain of the schedule from the
    clock reading: its first element is the schedule's next instant
    after [now], and each further element is the schedule's next instant
    after the element before it.  For [n = 0] the list is empty. *)
Theorem Next_is_chain job sc n now ts :
  job_parse (Plan job) = inl sc ->
  Next job n now = Returned (ts, None) ->
  0 <= n ∧
  length ts = Z.to_nat n ∧
  (∀ x, head ts = Some x -> x = sched_next sc now) ∧
  (∀ (i : nat) x y, ts !! i = Some x -> ts !! S i = Some y ->
                    y = sched_next sc x).
Proof.
  intros Hsc Hnext.
  pose proof (Next_returned_range job sc n now ts Hsc Hnext) as Hn.
  rewrite (Next_accepted job sc n now Hsc Hn) in Hnext.
  injection Hnext as <-. split; [lia|].
  split; [apply length_triggers_after|]. split.
  - destruct (Z.to_nat n); simpl; [done|]. by intros x [= <-].
  - apply triggers_after_chain.
Qed.

End MoreNext.

Section Ready.
Context `{Env}.
Variable Resolve_OnServerReady : readyHandler -> World -> option error * World.

Implicit Types (c : schedulerImpl) (name plan : string) (w : World).

(** [AddAndRunOnServerReady] changes the scheduler exactly as [Add] does.
    When [Add] fails it returns the error of [Add] and does not go to
    the readiness hook: the world is untouched. *)
Theorem AddAndRunOnServerReady_after_failed_Add name plan h c w :
  (AddAndRunOnServerReady Resolve_OnServerReady name plan h c w).1.2 =
    (Add name plan h c).2 ∧
  ∀ err, (Add name plan h c).1 = Some err ->
    AddAndRunOnServerReady Resolve_OnServerReady name plan h c w =
      (Some err, (Add name plan h c).2, w).
Proof.
  unfold AddAndRunOnServerReady.
  destruct (Add name plan h c) as [[err|] c']; simpl.
  - split; [done|]. by intros ? [= ->].
  - destruct (Resolve_OnServerReady _ w) as [err' w']. done.
Qed.

(** When [Add] has gone through and the readiness hook can not be
    installed, [AddAndRunOnServerReady] returns the error of the hook and
    the job stays: its record is in the registry, active, and a second
    call under the name fails with the already-existed error. *)
Theorem AddAndRunOnServerReady_keeps_job name plan plan' h h' c w sc err w' :
  jobs c !! name = None ->
  engine_parse plan = inl sc ->
  Resolve_OnServerReady
    (match as_JobHandler h with
     | Some hh => HandleMethod hh
     | None => RawHandler h
     end) w = (Some err, w') ->
  ∃ c' reg,
    AddAndRunOnServerReady Resolve_OnServerReady name plan h c w =
      (Some err, c', w') ∧
    Info name c' = (reg, None) ∧ Paused reg = false ∧ Plan reg = plan ∧
    (AddAndRunOnServerReady Resolve_OnServerReady name plan' h' c' w').1.1 =
      Some (ErrJobExisted name (ID reg) plan).
Proof.
  intros Hfree Hsc Hhook. unfold AddAndRunOnServerReady at 1.
  destruct (Add name plan h c) as [r c1] eqn:E. unfold Add in E.
  rewrite Hfree, (Cron_AddFunc_accepted _ _ _ sc Hsc) in E. simpl in E.
  injection E as <- <-. rewrite Hhook.
  eexists _, _. split; [reflexivity|].
  unfold Info. simpl. rewrite lookup_insert_eq.
  split; [reflexivity|]. simpl. split; [done|]. split; [done|].
  unfold AddAndRunOnServerReady, Add. simpl. rewrite lookup_insert_eq.
  reflexivity.
Qed.

(** [MustAddAndRunOnServerReady] returns normally when
    [AddAndRunOnServerReady] gives no error and panics with its error
    otherwise; scheduler and world are those of
    [AddAndRunOnServerReady]. *)
Lemma MustAddAndRunOnServerReady_outcome name plan h c w :
  let r := AddAndRunOnServerReady Resolve_OnServerReady name plan h c w in
  MustAddAndRunOnServerReady Resolve_OnServerReady name plan h c w =
    (match r.1.1 with
     | Some err => Panicked (ErrVal err)
     | None => Returned tt
     end, r.1.2, r.2).
Proof.
  simpl. unfold MustAddAndRunOnServerReady.
  destruct (AddAndRunOnServerReady _ _ _ _ _ _) as [[[err|] c'] w']; done.
Qed.

End Ready.

Section UnguardedCalls.
Context `{Env}.

Implicit Types (c : schedulerImpl) (e : Cron) (name : string) (w : World)
  (lm : option Unguarded.DistributeLockManager).

Lemma guarded_run_returns name hh w :
  (Unguarded.guarded_run name hh w).1.1 = Returned tt.
Proof.
  unfold Unguarded.guarded_run.
  destruct (ResolveWithError hh w) as [r w1].
  destruct r as [[err|]|v]; reflexivity.
Qed.

(** For a manager whose methods return, the unguarded closures are the
    closures of the scheduler. *)
Lemma jobHandler_returning c name hh w :
  Unguarded.jobHandler (returning <$> distributeLockManager c) name hh w =
  jobHandler c name hh w.
Proof.
  unfold Unguarded.jobHandler, jobHandler, lock_missing.
  destruct (distributeLockManager c) as [m|]; simpl; [|reflexivity].
  destruct (HasLock m w); reflexivity.
Qed.

Lemma trigger_returning c id w :
  Unguarded.trigger (returning <$> distributeLockManager c) (cr c) id w =
  trigger c id w.
Proof.
  unfold Unguarded.trigger, trigger.
  destruct (Cron_Entry id (cr c)) as [x|]; [|reflexivity].
  unfold Unguarded.run_cronFunc, run_cronFunc.
  destruct (eJob x) as [|n hh|]; [reflexivity|apply jobHandler_returning|].
  unfold Unguarded.getDistributeLock, getDistributeLock.
  destruct (distributeLockManager c) as [m|]; simpl; [|reflexivity].
  destruct (TryLock m w) as [[err|] w1]; reflexivity.
Qed.

Lemma Start_returning c w :
  Unguarded.Start (returning <$> distributeLockManager c) (cr c) w =
  (Returned tt, cr (Start c w).1.1, (Start c w).1.2, (Start c w).2).
Proof.
  unfold Unguarded.Start, Start, Unguarded.getDistributeLock,
    getDistributeLock.
  destruct (distributeLockManager c) as [m|]; simpl; [|reflexivity].
  destruct (TryLock m w) as [[err|] w1]; simpl;
    destruct (Cron_AddFunc _ _ _) as [[id err'] e1]; reflexivity.
Qed.

(** What a trigger does, by the function of its entry, on a scheduler
    reached through the interface. *)
Lemma unguarded_trigger_cases c lm id w :
  reachable c ->
  match Cron_Entry id (cr c) with
  | None => Unguarded.trigger lm (cr c) id w = (Returned tt, w, [])
  | Some x =>
      (eJob x = GetDistributeLockFn ∧
       Unguarded.trigger lm (cr c) id w = Unguarded.getDistributeLock lm w) ∨
      (∃ n hh, eJob x = JobHandlerFn n hh ∧
               Unguarded.trigger lm (cr c) id w =
                 Unguarded.jobHandler lm n hh w)
  end.
Proof.
  intros Hr. unfold Unguarded.trigger.
  destruct (Cron_Entry id (cr c)) as [x|] eqn:Hx; [|reflexivity].
  apply Cron_Entry_Some in Hx as [Hin _].
  pose proof (reachable_owned c Hr x Hin) as Ho. unfold owns in Ho.
  unfold Unguarded.run_cronFunc.
  destruct (eJob x) as [|n hh|]; [done| |].
  - right. by exists n, hh.
  - left. done.
Qed.

Lemma unguarded_jobHandler_panics lm name hh w :
  (∃ v, (Unguarded.jobHandler lm name hh w).1.1 = Panicked v) ↔
  ∃ m v, lm = Some m ∧ (Unguarded.HasLock m w).1 = Panicked v.
Proof.
  unfold Unguarded.jobHandler. destruct lm as [m|].
  - destruct (Unguarded.HasLock m w) as [[[|]|v] w0] eqn:Hh; simpl.
    + rewrite guarded_run_returns. split; [by intros [? ?]|].
      intros (m' & v & [= <-] & Hp). rewrite Hh in Hp. done.
    + split; [by intros [? ?]|].
      intros (m' & v & [= <-] & Hp). rewrite Hh in Hp. done.
    + split; [|by eexists]. intros _. exists m, v. by rewrite Hh.
  - rewrite guarded_run_returns. split; [by intros [? ?]|].
    by intros (m & v & ? & _).
Qed.

Lemma unguarded_getDistributeLock_panics lm w :
  (∃ v, (Unguarded.getDistributeLock lm w).1.1 = Panicked v) ↔
  lm = None ∨ ∃ m v, lm = Some m ∧ (Unguarded.TryLock m w).1 = Panicked v.
Proof.
  unfold Unguarded.getDistributeLock. destruct lm as [m|].
  - destruct (Unguarded.TryLock m w) as [[[err|]|v] w1] eqn:Ht; simpl.
    + split; [by intros [? ?]|].
      intros [?|(m' & v & [= <-] & Hp)]; [done|]. rewrite Ht in Hp. done.
    + split; [by intros [? ?]|].
      intros [?|(m' & v & [= <-] & Hp)]; [done|]. rewrite Ht in Hp. done.
    + split; [|by eexists]. intros _. right. exists m, v. by rewrite Ht.
  - split; [by left|by eexists].
Qed.

(** The registry calls give the same engine and job map whatever the
    lock manager of the scheduler is. *)
Lemma exec_registry_congr (k : call) c1 c2 :
  is_Some (target k) ->
  cr c1 = cr c2 -> jobs c1 = jobs c2 ->
  cr (exec k c1) = cr (exec k c2) ∧ jobs (exec k c1) = jobs (exec k c2).
Proof.
  intros Ht Hcr Hjobs. destruct c1 as [e1 m1 j1], c2 as [e2 m2 j2].
  simpl in Hcr, Hjobs. subst e2 j2.
  destruct k as [name plan h|name|name|name|m|w|w]; simpl;
    try (by destruct Ht).
  - unfold Add. simpl. destruct (j1 !! name); [done|].
    destruct (Cron_AddFunc _ _ _) as [[id [err|]] e]; done.
  - unfold Remove. simpl. destruct (j1 !! name) as [reg|]; [|done].
    destruct (Paused reg); done.
  - unfold Pause. simpl. destruct (j1 !! name) as [reg|]; [|done].
    destruct (Paused reg); done.
  - unfold Continue. simpl. destruct (j1 !! name) as [reg|]; [|done].
    destruct (Paused reg); simpl; [|done].
    destruct (Cron_AddFunc _ _ _) as [[id [err|]] e]; done.
Qed.

(** The engine and the job map of a scheduler reached with a manager
    that may panic are those of a scheduler reached with managers that
    return. *)
Lemma ureachable_reachable (s : uScheduler) :
  ureachable s ->
  ∃ c, reachable c ∧ cr c = u_cr s ∧ jobs c = u_jobs s.
Proof.
  induction 1 as [|k s _ (c & Hr & Hcr & Hjobs)].
  - exists NewManager. split; [constructor|done].
  - assert (Hreg : ∀ k', is_Some (target k') ->
              ∃ c', reachable c' ∧
                    cr c' = cr (exec k' (registry_of s)) ∧
                    jobs c' = jobs (exec k' (registry_of s))).
    { intros k' Ht. exists (exec k' c). split; [by constructor|].
      apply exec_registry_congr; done. }
    destruct k as [name plan h|name|name|name|m|w|w]; simpl.
    + apply (Hreg (CAdd name plan h)). by eexists.
    + apply (Hreg (CRemove name)). by eexists.
    + apply (Hreg (CPause name)). by eexists.
    + apply (Hreg (CContinue name)). by eexists.
    + by exists c.
    + unfold Unguarded.Start, Unguarded.getDistributeLock.
      destruct (u_distributeLockManager s) as [m|]; simpl.
      * destruct (Unguarded.TryLock m w) as [[[err|]|v] w1]; simpl.
        -- exists (exec (CStart w)
                     (exec (CDistributeLockManager (Some idleManager)) c)).
           split; [by repeat constructor|]. simpl. unfold Start. simpl.
           rewrite Hcr. destruct (Cron_AddFunc _ _ _) as [[id err'] e1].
           done.
        -- exists (exec (CStart w)
                     (exec (CDistributeLockManager (Some idleManager)) c)).
           split; [by repeat constructor|]. simpl. unfold Start. simpl.
           rewrite Hcr. destruct (Cron_AddFunc _ _ _) as [[id err'] e1].
           done.
        -- by exists c.
      * exists (exec (CStart w) (exec (CDistributeLockManager None) c)).
        split; [by repeat constructor|]. simpl. unfold Start. simpl.
        by rewrite Hcr.
    + exists (exec (CStop w) (exec (CDistributeLockManager None) c)).
      split; [by repeat constructor|]. simpl.
      unfold Stop, Unguarded.Stop. simpl. rewrite Hcr.
      destruct (u_distributeLockManager s) as [m|]; [|done].
      destruct (Unguarded.TryUnLock m w) as [[[err|]|v] w1]; done.
Qed.

Lemma ureachable_urun (ks : list ucall) : ureachable (urun ks).
Proof.
  unfold urun. generalize uNewManager, ureachable_new.
  induction ks as [|k ks IH]; intros s Hs; simpl; [done|].
  apply IH. by constructor.
Qed.

(** On a scheduler reached through the interface, whose lock manager may
    panic, a trigger panics in exactly these situations: the entry is the
    lock poller and the manager is nil or its [TryLock] panics, or the
    entry is a job and the manager is set and its [HasLock] panics.  A
    panic of the handler never gets out. *)
Theorem unguarded_trigger_panics_iff (s : uScheduler) id w :
  ureachable s ->
  let lm := u_distributeLockManager s in
  ((∃ v, (Unguarded.trigger lm (u_cr s) id w).1.1 = Panicked v) ↔
   ∃ x, Cron_Entry id (u_cr s) = Some x ∧
     ((eJob x = GetDistributeLockFn ∧
       (lm = None ∨
        ∃ m v, lm = Some m ∧ (Unguarded.TryLock m w).1 = Panicked v)) ∨
      (∃ n hh m v, eJob x = JobHandlerFn n hh ∧ lm = Some m ∧
                   (Unguarded.HasLock m w).1 = Panicked v))).
Proof.
  intros (c & Hr & Hcr & _)%ureachable_reachable lm. rewrite <- Hcr.
  pose proof (unguarded_trigger_cases c lm id w Hr) as Hcases.
  destruct (Cron_Entry id (cr c)) as [x|] eqn:Hx.
  - destruct Hcases as [[Hjob ->]|(n & hh & Hjob & ->)].
    + rewrite unguarded_getDistributeLock_panics. split.
      * intros Hp. exists x. split; [done|]. by left.
      * intros (x' & [= <-] & [[_ Hp]|(n & hh & m & v & Hjob' & _)]);
          [done|congruence].
    + rewrite unguarded_jobHandler_panics. split.
      * intros (m & v & Hm & Hp). exists x. split; [done|]. right.
        by exists n, hh, m, v.
      * intros (x' & [= <-] & [[Hjob' _]|(n' & hh' & m & v & _ & Hm & Hp)]);
          [congruence|by exists m, v].
  - rewrite Hcases. simpl. split; [by intros [? ?]|].
    by intros (x & ? & _).
Qed.

(** With a lock manager set whose [HasLock] and [TryLock] return on
    every world, no sequence of triggers on a scheduler reached through
    the interface ends in a panic: every trigger of the sequence is run,
    whatever the handlers do. *)
Theorem unguarded_dispatch_returns (s : uScheduler)
    (m : Unguarded.DistributeLockManager) (ids : list EntryID) w :
  ureachable s ->
  u_distributeLockManager s = Some m ->
  (∀ w', ∃ b, (Unguarded.HasLock m w').1 = Returned b) ->
  (∀ w', ∃ r, (Unguarded.TryLock m w').1 = Returned r) ->
  (Unguarded.dispatch (Some m) (u_cr s) ids w).1.1 = Returned tt.
Proof.
  intros (c & Hr & Hcr & _)%ureachable_reachable _ Hhas Htry.
  rewrite <- Hcr. revert w.
  induction ids as [|id ids IH]; intros w; [done|]. simpl.
  destruct (Unguarded.trigger (Some m) (cr c) id w) as [[r w1] l1] eqn:Et.
  destruct r as [[]|v].
  - specialize (IH w1).
    destruct (Unguarded.dispatch (Some m) (cr c) ids w1) as [[r w2] l2].
    done.
  - exfalso.
    assert (Hp : ∃ v, (Unguarded.trigger (Some m) (cr c) id w).1.1
                      = Panicked v) by (rewrite Et; by eexists).
    apply (unguarded_trigger_cases c (Some m) id w) in Hr.
    destruct (Cron_Entry id (cr c)) as [x|].
    + destruct Hr as [[_ Heq]|(n & hh & _ & Heq)]; rewrite Heq in Hp.
      * apply unguarded_getDistributeLock_panics in Hp
          as [?|(m' & v' & [= <-] & Hv)]; [done|].
        destruct (Htry w) as [r Hr']. congruence.
      * apply unguarded_jobHandler_panics in Hp
          as (m' & v' & [= <-] & Hv).
        destruct (Hhas w) as [b Hb]. congruence.
    + rewrite Hr in Hp. by destruct Hp.
Qed.

(** [Start] panics exactly when a lock manager is set and its [TryLock]
    panics; the engine is then left as it was, not started and without
    the poller, and nothing is logged.  When [Start] returns, the engine
    runs, keeps every entry it had and has the poller as a new entry when
    a manager is set and the engine accepts "@every 60s"; the lines
    logged are the warning for an error of [TryLock] and the error for a
    rejected poller, and no others.  [Stop] stops the engine in every
    case and keeps its entries; it panics exactly when a manager is set
    and its [TryUnLock] panics, and logs only the warning for an error of
    [TryUnLock]. *)
Theorem Start_Stop_outcomes lm e w :
  let start := Unguarded.Start lm e w in
  let stop := Unguarded.Stop lm e w in
  ((∃ v, start.1.1.1 = Panicked v) ↔
   ∃ m v, lm = Some m ∧ (Unguarded.TryLock m w).1 = Panicked v) ∧
  (∀ v, start.1.1.1 = Panicked v -> start.1.1.2 = e ∧ start.2 = []) ∧
  (start.1.1.1 = Returned tt ->
   running start.1.1.2 = true ∧
   (∀ x, x ∈ entries e -> x ∈ entries start.1.1.2) ∧
   (∀ sc, is_Some lm -> engine_parse "@every 60s" = inl sc ->
          mkEntry (nextID e + 1) sc GetDistributeLockFn
            ∈ entries start.1.1.2) ∧
   (lm = None -> start.1.1.2 = Cron_Start e ∧ start.1.2 = w) ∧
   start.2 =
     match lm with
     | None => []
     | Some m =>
         match (Unguarded.TryLock m w).1 with
         | Returned (Some err) => warningf (MsgTryLockFailed err)
         | _ => []
         end ++
         match engine_parse "@every 60s" with
         | inr err => [Errorf (MsgInitLockTaskFailed err)]
         | inl _ => []
         end
     end) ∧
  stop.1.1.2 = Cron_Stop e ∧
  running stop.1.1.2 = false ∧ entries stop.1.1.2 = entries e ∧
  ((∃ v, stop.1.1.1 = Panicked v) ↔
   ∃ m v, lm = Some m ∧ (Unguarded.TryUnLock m w).1 = Panicked v) ∧
  stop.2 =
    match lm with
    | None => []
    | Some m =>
        match (Unguarded.TryUnLock m w).1 with
        | Returned (Some err) => warningf (MsgUnLockFailed err)
        | _ => []
        end
    end.
Proof.
  simpl.
  unfold Unguarded.Start, Unguarded.Stop, Unguarded.getDistributeLock,
    Cron_AddFunc.
  destruct lm as [m|]; simpl.
  - destruct (Unguarded.TryLock m w) as [[[err|]|v] w1] eqn:Ht;
      destruct (Unguarded.TryUnLock m w) as [[[err2|]|v2] w2] eqn:Hu;
      destruct (engine_parse "@every 60s") as [sc|err']; simpl;
      rewrite ?app_nil_r;
      repeat split; try done;
      try (intros x Hx; apply elem_of_app; by left);
      try (intros sc' _ [= <-]; apply elem_of_app; right; left);
      try (by intros [? ?]);
      try (intros _; by eexists);
      try (intros (m0 & v0 & [= <-] & Hp); rewrite ?Ht, ?Hu in Hp; done);
      try (intros _; exists m; eexists; rewrite ?Ht, ?Hu; done).
  - repeat split; try done;
      try (by intros [? ?]); try (by intros (m & v & ? & _)).
Qed.

End UnguardedCalls.

(** * The further properties on the concrete collaborators *)

Section ConcreteMore.

Local Existing Instance Demo.env.

Lemma Continue_idempotent_witness :
  (Continue "a" Demo.pausedJob).1 = None ∧
  Continue "a" (Continue "a" Demo.pausedJob).2 =
    (None, (Continue "a" Demo.pausedJob).2).
Proof.
  split; [vm_compute; reflexivity|].
  apply (Continue_idempotent "a" Demo.pausedJob).
  vm_compute. reflexivity.
Defined.

Lemma other_records_untouched_witness :
  jobs (exec (@CRemove Demo.env "a") Demo.twoJobs) !! "b" =
    jobs Demo.twoJobs !! "b" ∧
  Info "b" (exec (@CRemove Demo.env "a") Demo.twoJobs) =
    Info "b" Demo.twoJobs.
Proof.
  apply (other_records_untouched (@CRemove Demo.env "a") Demo.twoJobs "b").
  simpl. discriminate.
Defined.

Lemma record_fields_immutable_witness :
  let j := Demo.job 1 "a" "@every 5s" Demo.Panics false in
  let j' := Demo.job 1 "a" "@every 5s" Demo.Panics true in
  Name j' = Name j ∧ Plan j' = Plan j ∧ handler j' = handler j.
Proof.
  apply (record_fields_immutable (@CPause Demo.env "a") Demo.oneJob "a"
           (Demo.job 1 "a" "@every 5s" Demo.Panics false)
           (Demo.job 1 "a" "@every 5s" Demo.Panics true)).
  - vm_compute. reflexivity.
  - vm_compute. reflexivity.
Defined.

Lemma Add_two_names_witness :
  let c1 := (@Add Demo.env "a" "@every 5s" Demo.Panics NewManager).2 in
  let c2 := (Add "b" "@every 60s" Demo.Succeeds c1).2 in
  (@Add Demo.env "a" "@every 5s" Demo.Panics NewManager).1 = None ∧
  (Add "b" "@every 60s" Demo.Succeeds c1).1 = None ∧
  ∃ j1 j2,
    Info "a" c2 = (j1, None) ∧ Info "b" c2 = (j2, None) ∧
    Paused j1 = false ∧ Paused j2 = false ∧
    Plan j1 = "@every 5s" ∧ Plan j2 = "@every 60s" ∧ ID j1 ≠ ID j2.
Proof.
  apply (@Add_two_names Demo.env "a" "b" "@every 5s" "@every 60s"
           Demo.Panics Demo.Succeeds 5 60 NewManager).
  - discriminate.
  - vm_compute. reflexivity.
  - vm_compute. reflexivity.
  - reflexivity.
  - reflexivity.
Defined.

Lemma job_entries_have_active_records_witness :
  Demo.entry 3 60 "b" Demo.Succeeds ∈ entries (cr Scenario.started) ∧
  ∃ j, Info "b" Scenario.started = (j, None) ∧ Paused j = false ∧
       ID j = 3 ∧ handler j = JobHandlerFn "b" Demo.Succeeds.
Proof.
  assert (Hin : Demo.entry 3 60 "b" Demo.Succeeds
                ∈ entries (cr Scenario.started)).
  { vm_compute. right. right. left. }
  split; [exact Hin|].
  apply (job_entries_have_active_records Scenario.started
           (Demo.entry 3 60 "b" Demo.Succeeds) "b" Demo.Succeeds).
  - apply reachable_run.
  - exact Hin.
  - reflexivity.
Defined.

Lemma stopped_job_has_no_entry_witness :
  (∀ e hh, e ∈ entries (cr (Remove "a" Scenario.started).2) ->
           eJob e ≠ JobHandlerFn "a" hh) ∧
  (∀ e hh, e ∈ entries (cr (Pause "a" Scenario.started).2) ->
           eJob e ≠ JobHandlerFn "a" hh).
Proof.
  apply (stopped_job_has_no_entry Scenario.started "a").
  apply reachable_run.
Defined.

Lemma single_registration_witness :
  Demo.entry 1 5 "a" Demo.Panics ∈ entries (cr Scenario.started) ∧
  Demo.entry 1 5 "a" Demo.Panics = Demo.entry 1 5 "a" Demo.Panics.
Proof.
  assert (Hin : Demo.entry 1 5 "a" Demo.Panics
                ∈ entries (cr Scenario.started)).
  { vm_compute. left. }
  split; [exact Hin|].
  apply (single_registration Scenario.started _ _ "a" Demo.Panics Demo.Panics).
  - apply reachable_run.
  - exact Hin.
  - exact Hin.
  - reflexivity.
  - reflexivity.
Defined.

Lemma live_handle_not_shared_witness :
  ID (Demo.job 1 "a" "@every 5s" Demo.Panics false) ≠
  ID (Demo.job 3 "b" "@every 60s" Demo.Succeeds false).
Proof.
  apply (live_handle_not_shared Scenario.started "a" "b").
  - apply reachable_run.
  - discriminate.
  - vm_compute. reflexivity.
  - vm_compute. reflexivity.
  - reflexivity.
Defined.

Lemma Add_Remove_roundtrip_witness :
  let c1 := (Add "c" "@every 5s" Demo.Fails Scenario.started).2 in
  let c2 := (Remove "c" c1).2 in
  (Remove "c" c1).1 = None ∧
  jobs c2 = jobs Scenario.started ∧
  entries (cr c2) = entries (cr Scenario.started) ∧
  nextID (cr c2) = nextID (cr Scenario.started) + 1.
Proof.
  apply (@Add_Remove_roundtrip Demo.env Scenario.started "c" "@every 5s"
           Demo.Fails 5).
  - apply reachable_run.
  - vm_compute. reflexivity.
  - reflexivity.
Defined.

Lemma Pause_Continue_fresh_handle_witness :
  let reg := Demo.job 1 "a" "@every 5s" Demo.Panics false in
  let c1 := (Pause "a" Scenario.started).2 in
  let c2 := (Continue "a" c1).2 in
  (Continue "a" c1).1 = None ∧
  Info "a" c2 =
    (mkJob (nextID (cr Scenario.started) + 1) (Name reg) (Plan reg)
       (handler reg) false, None) ∧
  nextID (cr Scenario.started) + 1 ≠ ID reg ∧
  Cron_Entry (ID reg) (cr c2) = None ∧
  entries (cr c2) =
    filter (λ x, eID x ≠ ID reg) (entries (cr Scenario.started)) ++
    [mkEntry (nextID (cr Scenario.started) + 1) 5 (handler reg)].
Proof.
  apply (Pause_Continue_fresh_handle Scenario.started "a"
           (Demo.job 1 "a" "@every 5s" Demo.Panics false) 5).
  - apply reachable_run.
  - vm_compute. reflexivity.
  - reflexivity.
  - reflexivity.
Defined.

(** The poller of [unsetLock] panics when it is triggered. *)
Example poller_without_manager :
  trigger Scenario.unsetLock 1 Demo.unlocked =
    (Panicked (Val "runtime error: invalid memory address or nil pointer dereference"),
     Demo.unlocked, []).
Proof. vm_compute. reflexivity. Qed.

Lemma dispatch_without_lock_witness :
  ∃ l, dispatch Demo.twoJobs [1; 2; 1] Demo.unlocked =
         (Returned tt, Demo.unlocked, l) ∧
       existsb is_Errorf l = false.
Proof.
  apply (dispatch_without_lock Demo.twoJobs Demo.lockManager [1; 2; 1]
           Demo.unlocked).
  - vm_compute. reflexivity.
  - reflexivity.
  - intros id Hin.
    repeat (apply elem_of_cons in Hin as [->|Hin]);
      [| | |by apply elem_of_nil in Hin];
      intros e He; vm_compute in He; injection He as <-; by eexists _, _.
Defined.

Lemma Next_more_extends_witness :
  ∃ ts tm,
    Next (Demo.job 1 "a" "@every 5s" Demo.Succeeds false) 2 100 =
      Returned (ts, None) ∧
    Next (Demo.job 1 "a" "@every 5s" Demo.Succeeds false) 4 100 =
      Returned (tm, None) ∧
    ts `prefix_of` tm.
Proof.
  apply (Next_more_extends
           (Demo.job 1 "a" "@every 5s" Demo.Succeeds false) 5 2 4 100).
  - reflexivity.
  - lia.
  - vm_compute. discriminate.
Defined.

Lemma Next_is_chain_witness :
  0 <= 3 ∧
  length [105; 110; 115] = Z.to_nat 3 ∧
  (∀ x, head [105; 110; 115] = Some x -> x = 100 + 5) ∧
  (∀ (i : nat) x y, [105; 110; 115] !! i = Some x ->
                    [105; 110; 115] !! S i = Some y -> y = x + 5).
Proof.
  apply (Next_is_chain
           (Demo.job 1 "a" "@every 5s" Demo.Succeeds false) 5 3 100
           [105; 110; 115]).
  - reflexivity.
  - reflexivity.
Defined.

Lemma AddAndRunOnServerReady_keeps_job_witness :
  ∃ c' reg,
    @AddAndRunOnServerReady Demo.env Scenario.onServerReady "a" "@every 5s"
      Demo.Fails NewManager Demo.unlocked = (Some (ErrExternal "can not resolve"), c',
                                  Demo.unlocked) ∧
    Info "a" c' = (reg, None) ∧ Paused reg = false ∧
    Plan reg = "@every 5s" ∧
    (AddAndRunOnServerReady Scenario.onServerReady "a" "@every 60s"
       Demo.Succeeds c' Demo.unlocked).1.1 =
      Some (ErrJobExisted "a" (ID reg) "@every 5s").
Proof.
  apply (@AddAndRunOnServerReady_keeps_job Demo.env Scenario.onServerReady
           "a" "@every 5s" "@every 60s" Demo.Fails Demo.Succeeds
           (@NewManager Demo.env) Demo.unlocked 5
           (ErrExternal "can not resolve")
           Demo.unlocked).
  - vm_compute. reflexivity.
  - reflexivity.
  - reflexivity.
Defined.

Lemma not_found_iff_absent_witness :
  jobs Demo.oneJob !! "b" = None ∧
  Remove "b" Demo.oneJob = (Some (ErrJobNotFound "b"), Demo.oneJob) ∧
  Pause "b" Demo.oneJob = (Some (ErrJobNotFound "b"), Demo.oneJob) ∧
  Continue "b" Demo.oneJob = (Some (ErrJobNotFound "b"), Demo.oneJob) ∧
  Info "b" Demo.oneJob = (zeroJob, Some (ErrJobNotFound "b")).
Proof.
  assert (Hfree : jobs Demo.oneJob !! "b" = None) by (vm_compute; reflexivity).
  split; [exact Hfree|].
  apply (not_found_iff_absent "b" Demo.oneJob). exact Hfree.
Defined.

Lemma Add_succeeds_iff_witness :
  let c' := (Add "b" "@every 60s" Demo.Succeeds Demo.oneJob).2 in
  Info "b" c' = (Demo.job 2 "b" "@every 60s" Demo.Succeeds false, None) ∧
  entries (cr c') =
    entries (cr Demo.oneJob) ++ [Demo.entry 2 60 "b" Demo.Succeeds] ∧
  distributeLockManager c' = distributeLockManager Demo.oneJob.
Proof.
  apply (proj2 (@Add_succeeds_iff Demo.env "b" "@every 60s" Demo.Succeeds
                  Demo.oneJob) 60).
  - vm_compute. reflexivity.
  - reflexivity.
Defined.

Lemma MustAdd_panics_iff_witness :
  (MustAdd "a" "@every 60s" Demo.Succeeds Demo.oneJob).1 =
    Panicked (ErrVal (ErrJobExisted "a" 1 "@every 5s")).
Proof.
  apply (proj2 (proj2 (@MustAdd_panics_iff Demo.env "a" "@every 60s"
                         Demo.Succeeds Demo.oneJob))).
  vm_compute. reflexivity.
Defined.

Lemma AddAndRunOnServerReady_after_failed_Add_witness :
  AddAndRunOnServerReady Scenario.onServerReady "a" "@every 60s"
    Demo.Succeeds Demo.oneJob Demo.unlocked =
    (Some (ErrJobExisted "a" 1 "@every 5s"),
     (Add "a" "@every 60s" Demo.Succeeds Demo.oneJob).2, Demo.unlocked).
Proof.
  apply (proj2 (@AddAndRunOnServerReady_after_failed_Add Demo.env
                  Scenario.onServerReady "a" "@every 60s" Demo.Succeeds
                  Demo.oneJob Demo.unlocked)).
  vm_compute. reflexivity.
Defined.

(** A job trigger while the manager has lost its backend: [HasLock]
    panics and the panic leaves the closure. *)
Example trigger_with_lost_manager :
  Unguarded.trigger (u_distributeLockManager Scenario.lost)
    (u_cr Scenario.lost) 1 Demo.unlocked =
    (Panicked (Val "connection lost"), Demo.unlocked, []).
Proof. vm_compute. reflexivity. Qed.

Lemma unguarded_trigger_panics_iff_witness :
  let lm := u_distributeLockManager Scenario.lost in
  (∃ v, (Unguarded.trigger lm (u_cr Scenario.lost) 1 Demo.unlocked).1.1
        = Panicked v) ↔
  ∃ x, Cron_Entry 1 (u_cr Scenario.lost) = Some x ∧
    ((eJob x = GetDistributeLockFn ∧
      (lm = None ∨
       ∃ m v, lm = Some m ∧
              (Unguarded.TryLock m Demo.unlocked).1 = Panicked v)) ∨
     (∃ n hh m v, eJob x = JobHandlerFn n hh ∧ lm = Some m ∧
                  (Unguarded.HasLock m Demo.unlocked).1 = Panicked v)).
Proof.
  apply (unguarded_trigger_panics_iff Scenario.lost 1 Demo.unlocked).
  apply ureachable_urun.
Defined.

Lemma unguarded_dispatch_returns_witness :
  (Unguarded.dispatch (Some (returning Demo.lockManager))
     (u_cr Scenario.sound) [1; 2; 3; 1; 7] Demo.unlocked).1.1 = Returned tt.
Proof.
  apply (unguarded_dispatch_returns Scenario.sound
           (returning Demo.lockManager) [1; 2; 3; 1; 7] Demo.unlocked).
  - apply ureachable_urun.
  - reflexivity.
  - intros w'. eexists. reflexivity.
  - intros w'. eexists. reflexivity.
Defined.

(** [Start] with the lost manager: [TryLock] panics, the engine is not
    started and has no poller.  [Stop] with it: the engine is stopped
    and [TryUnLock] panics. *)
Example Start_with_lost_manager :
  Unguarded.Start (Some Scenario.lostManager) (cr Demo.oneJob) Demo.unlocked =
    (Panicked (Val "connection lost"), cr Demo.oneJob, Demo.unlocked, []) ∧
  Unguarded.Stop (Some Scenario.lostManager) (cr Demo.oneJob) Demo.unlocked =
    (Panicked (Val "connection lost"), Cron_Stop (cr Demo.oneJob),
     Demo.unlocked, []).
Proof. vm_compute. split; reflexivity. Qed.

Lemma Start_Stop_outcomes_witness :
  (∃ v, (Unguarded.Start (Some Scenario.lostManager) (cr Demo.oneJob)
           Demo.unlocked).1.1.1 = Panicked v) ↔
  ∃ m v, Some Scenario.lostManager = Some m ∧
         (Unguarded.TryLock m Demo.unlocked).1 = Panicked v.
Proof.
  apply (proj1 (Start_Stop_outcomes (Some Scenario.lostManager)
                  (cr Demo.oneJob) Demo.unlocked)).
Defined.

End ConcreteMore.
